(** * The generative audio engine (services/audioEngine.ts)

    A shallow embedding of the [AudioEngine] class: the seeded generator
    [getRandomFromSeed], the scale table, [resume], [play], [setupEffects],
    [startPad], [startGenerativeMelody] and its interval callback, and [stop].

    Modelling conventions.
    - A JavaScript number is an exact rational ([Q]); decimal literals denote
      the rational they spell and arithmetic does not round.  Integer-valued
      numbers that go through bit operators are [Z] with the 32-bit
      wrap-around of [<<] written out; the seed hash grows by less than
      2^32 per code unit, so it is an exact binary64 integer for every seed
      shorter than 2^21 code units.
    - [Math.sin] and [Math.pow] are implementation-approximated by the host;
      they are fields of a [Host] record, and every theorem holds for all
      hosts.
    - A JavaScript string is its list of UTF-16 code units.
    - The Web Audio backend is observed through the ordered log of calls the
      engine makes on it ([Event]); node references are fresh identifiers.
    - Exceptions and the [await] of [play] are explicit in [Completion]. *)

From Stdlib Require Import ZArith QArith Qround List String Ascii Bool Lia Lqa.
Import ListNotations.

Set Implicit Arguments.

(** ** JavaScript values *)

Module JS.

(** A string as its UTF-16 code units. *)
Definition JSString := list Z.

(** The code units of an ASCII literal of the source. *)
Definition lit (s : string) : JSString :=
  map (fun a => Z.of_nat (nat_of_ascii a)) (list_ascii_of_string s).

(** [a === b] on strings. *)
Definition str_eqb (a b : JSString) : bool :=
  if list_eq_dec Z.eq_dec a b then true else false.

(** ToInt32: the signed 32-bit integer congruent to [z] modulo 2^32. *)
Definition to_int32 (z : Z) : Z := ((z + 2 ^ 31) mod 2 ^ 32 - 2 ^ 31)%Z.

(** [a << n]: both operands through ToInt32/ToUint32, the count masked to
    five bits, the result wrapped to 32 bits again. *)
Definition shl (a n : Z) : Z :=
  to_int32 (Z.shiftl (to_int32 a) (Z.land n 31)).

(** [a > b] on numbers. *)
Definition gtb (a b : Q) : bool := negb (Qle_bool a b).

(** [Math.floor]. *)
Definition floor (x : Q) : Z := Qfloor x.

(** Truthiness of a number: [0] is the only falsy rational. *)
Definition truthy (x : Q) : bool := negb (Qeq_bool x 0).

End JS.
Import JS.

(** ** Data model *)

(** [MusicalParams] of [../types]: the five fields the analysis service
    fills in.  [scale] and [mood] arrive as strings from parsed JSON. *)
Record MusicalParams := mkParams {
  scale : JSString;
  baseFrequency : Q;
  tempo : Q;
  complexity : Q;
  mood : JSString
}.

(** The closure returned by [getRandomFromSeed], or any other
    [() => number] handed to the pad and the melody: a private state and the
    function that yields a draw and the next state. *)
Record Rng := mkRng {
  rng_state : Type;
  rng_cur : rng_state;
  rng_next : rng_state -> Q * rng_state
}.

(** One call [rng()]. *)
Definition call (r : Rng) : Q * Rng :=
  let (x, s) := rng_next r (rng_cur r) in
  (x, mkRng s (rng_next r)).

(** The generator after [k] calls, and the value the next call returns. *)
Fixpoint advance (k : nat) (r : Rng) : Rng :=
  match k with
  | O => r
  | S k' => advance k' (snd (call r))
  end.

Definition draw (k : nat) (r : Rng) : Q := fst (call (advance k r)).

Definition NodeId := nat.
Definition TimerId := positive.

Inductive OscType := sine | triangle.

(** An [AudioParam] of a node. *)
Inductive Param :=
| gain (n : NodeId)
| frequency (n : NodeId)
| delayTime (n : NodeId).

(** What a node's output is connected to. *)
Inductive Dest :=
| destination
| node (n : NodeId)
| param (p : Param).

(** The calls the engine makes on the audio backend and on the host's
    timers, with their arguments. *)
Inductive Event :=
| CtxResume
| CreateGain (n : NodeId)
| CreateOscillator (n : NodeId)
| CreateConvolver (n : NodeId)
| CreateDelay (n : NodeId)
| CreateBuffer (b : NodeId) (channels : Z) (length rate : Q)
| FillImpulse (b : NodeId)
| SetBuffer (n b : NodeId)
| SetType (n : NodeId) (ty : OscType)
| SetValue (p : Param) (v : Q)
| SetValueAtTime (p : Param) (v t : Q)
| LinearRampToValueAtTime (p : Param) (v t : Q)
| ExponentialRampToValueAtTime (p : Param) (v t : Q)
| Connect (src : NodeId) (dst : Dest)
| Start (n : NodeId) (t : Q)
| StopNode (n : NodeId) (when : option Q)
| Disconnect (n : NodeId)
| SetInterval (id : TimerId) (ms : Q)
| ClearInterval (id : TimerId)
| SetTimeoutCleanup (osc env : NodeId) (ms : Q).

(** The host's math library and the backend's disposition towards
    [OscillatorNode.stop()]: given the calls made so far, whether stopping
    node [n] now raises (InvalidStateError). *)
Record Host := mkHost {
  Math_sin : Z -> Q;
  Math_pow : Q -> Q -> Q;
  stop_throws : list Event -> NodeId -> bool
}.

Inductive CtxState := suspended | running | closed.

(** How the promise of [ctx.resume()] settles. *)
Inductive ResumeOutcome := resolves | rejects | never_settles.

Record AudioContext := mkCtx {
  state : CtxState;
  currentTime : Q;
  sampleRate : Q;
  on_resume : ResumeOutcome
}.

(** The private fields of [AudioEngine]. *)
Record Engine := mkEngine {
  ctx : option AudioContext;
  isPlaying : bool;
  masterGain : option NodeId;
  melodyInterval : option TimerId;
  reverbNode : option NodeId;
  delayNode : option NodeId;
  currentOscillators : list NodeId
}.

(** What the interval callback of [startGenerativeMelody] closes over. *)
Record MelodyClosure := mkClosure {
  cl_params : MusicalParams;
  cl_scaleNotes : list Z;
  cl_rng : Rng
}.

(** The engine together with the host state it acts on: the allocator of
    node references, the timer table ([setInterval] handles are integers
    greater than zero, so [if (this.melodyInterval)] tests for null only),
    and the log of backend calls, oldest first. *)
Record World := mkWorld {
  eng : Engine;
  next_node : NodeId;
  next_timer : TimerId;
  intervals : list (TimerId * MelodyClosure);
  trace : list Event
}.

(** Completion of a method: normal return, an exception (a rejected promise
    for an async method), or an [await] that never resumes. *)
Inductive Completion := Normal | Throw | Pending.

Definition M := World -> Completion * World.

(** ** State plumbing *)

Definition with_eng (f : Engine -> Engine) (w : World) : World :=
  mkWorld (f (eng w)) (next_node w) (next_timer w) (intervals w) (trace w).

(** Record one or more backend calls. *)
Definition log (es : list Event) (w : World) : World :=
  mkWorld (eng w) (next_node w) (next_timer w) (intervals w) (trace w ++ es).

(** A fresh node (or buffer) reference. *)
Definition fresh (w : World) : NodeId * World :=
  (next_node w,
   mkWorld (eng w) (S (next_node w)) (next_timer w) (intervals w) (trace w)).

Definition with_intervals
  (f : list (TimerId * MelodyClosure) -> list (TimerId * MelodyClosure))
  (w : World) : World :=
  mkWorld (eng w) (next_node w) (next_timer w) (f (intervals w)) (trace w).

Definition set_ctx (c : option AudioContext) (e : Engine) : Engine :=
  mkEngine c (isPlaying e) (masterGain e) (melodyInterval e) (reverbNode e)
           (delayNode e) (currentOscillators e).

Definition set_isPlaying (b : bool) (e : Engine) : Engine :=
  mkEngine (ctx e) b (masterGain e) (melodyInterval e) (reverbNode e)
           (delayNode e) (currentOscillators e).

Definition set_masterGain (g : option NodeId) (e : Engine) : Engine :=
  mkEngine (ctx e) (isPlaying e) g (melodyInterval e) (reverbNode e)
           (delayNode e) (currentOscillators e).

Definition set_melodyInterval (i : option TimerId) (e : Engine) : Engine :=
  mkEngine (ctx e) (isPlaying e) (masterGain e) i (reverbNode e)
           (delayNode e) (currentOscillators e).

Definition set_reverbNode (n : option NodeId) (e : Engine) : Engine :=
  mkEngine (ctx e) (isPlaying e) (masterGain e) (melodyInterval e) n
           (delayNode e) (currentOscillators e).

Definition set_delayNode (n : option NodeId) (e : Engine) : Engine :=
  mkEngine (ctx e) (isPlaying e) (masterGain e) (melodyInterval e)
           (reverbNode e) n (currentOscillators e).

Definition set_currentOscillators (l : list NodeId) (e : Engine) : Engine :=
  mkEngine (ctx e) (isPlaying e) (masterGain e) (melodyInterval e)
           (reverbNode e) (delayNode e) l.

(** [this.currentOscillators.push(n)]. *)
Definition push_oscillator (n : NodeId) (e : Engine) : Engine :=
  set_currentOscillators (currentOscillators e ++ [n]) e.

(** Sequencing in [M]: the second step runs only after a normal completion
    of the first. *)
Definition seq (m1 m2 : M) : M := fun w =>
  match m1 w with
  | (Normal, w') => m2 w'
  | r => r
  end.

(** A step that cannot raise. *)
Definition act (f : World -> World) : M := fun w => (Normal, f w).

(** [try { body } catch (e) {}]. *)
Definition try_catch (body : M) : M := fun w =>
  match body w with
  | (Throw, w') => (Normal, w')
  | r => r
  end.

(** [xs.forEach(f)]. *)
Fixpoint forEach (A : Type) (f : A -> M) (xs : list A) : M :=
  match xs with
  | [] => act (fun w => w)
  | x :: rest => seq (f x) (forEach f rest)
  end.

Declare Scope engine_scope.
Delimit Scope engine_scope with engine.
Notation "m1 ;; m2" := (seq m1 m2)
  (at level 61, right associativity) : engine_scope.

(** ** The scale table *)

Definition major_scale : list Z := [0; 2; 4; 5; 7; 9; 11; 12]%Z.
Definition minor_scale : list Z := [0; 2; 3; 5; 7; 8; 10; 12]%Z.
Definition pentatonic_scale : list Z := [0; 2; 4; 7; 9; 12; 14; 16]%Z.
Definition mystic_scale : list Z := [0; 2; 4; 6; 9; 11; 12]%Z.
Definition dream_scale : list Z := [0; 2; 4; 5; 7; 9; 11]%Z.

(** [this.scales]: the object literal, as its key/value pairs in order. *)
Definition scales : list (JSString * list Z) :=
  [ (lit "major", major_scale);
    (lit "minor", minor_scale);
    (lit "pentatonic", pentatonic_scale);
    (lit "mystic", mystic_scale);
    (lit "dream", dream_scale) ].

(** [obj[key]]: [None] is [undefined]. *)
Fixpoint get (A : Type) (key : JSString) (obj : list (JSString * A))
  : option A :=
  match obj with
  | [] => None
  | (k, v) :: rest => if str_eqb key k then Some v else get key rest
  end.

(** [arr[i]] for a number [i] that holds an integer: [None] is
    [undefined] (negative or past the end). *)
Definition index (A : Type) (arr : list A) (i : Z) : option A :=
  if (i <? 0)%Z then None else nth_error arr (Z.to_nat i).

(** The scale selection of [startGenerativeMelody]:
    [params.scale === 'minor' ? 'minor' : 'pentatonic'], then
    [this.scales[scaleName] || this.scales.pentatonic] (an array is always
    truthy, so [||] falls through on [undefined] only). *)
Definition scaleName (p : MusicalParams) : JSString :=
  if str_eqb (scale p) (lit "minor") then lit "minor" else lit "pentatonic".

Definition scaleNotes (p : MusicalParams) : list Z :=
  match get (scaleName p) scales with
  | Some notes => notes
  | None =>
      match get (lit "pentatonic") scales with
      | Some notes => notes
      | None => []
      end
  end.

(** [const bpm = params.tempo || 80; const noteDuration = 60 / bpm;]. *)
Definition bpm (p : MusicalParams) : Q :=
  if truthy (tempo p) then tempo p else 80.

Definition noteDuration (p : MusicalParams) : Q := 60 / bpm p.

(** ** The engine's methods *)

Section Methods.

Variable host : Host.

Local Open Scope Q_scope.
Local Open Scope engine_scope.

(** [getRandomFromSeed]: the fold over the seed's code units
    ([hash = seed.charCodeAt(i) + ((hash << 5) - hash)]: the shift wraps to
    32 bits, the subtraction and the addition do not), then the closure over
    [hash] whose every call returns [x - Math.floor(x)] for
    [x = Math.sin(hash++) * 10000]. *)
Definition hash_step (hash c : Z) : Z := (c + (shl hash 5 - hash))%Z.

Definition seed_hash (seed : JSString) : Z := fold_left hash_step seed 0%Z.

Definition seeded_next (hash : Z) : Q * Z :=
  let x := Math_sin host hash * 10000 in
  (x - inject_Z (floor x), (hash + 1)%Z).

Definition getRandomFromSeed (seed : JSString) : Rng :=
  mkRng (seed_hash seed) seeded_next.

(** [resume]: awaits [ctx.resume()] when a context exists and is
    suspended. *)
Definition resume : M := fun w =>
  match ctx (eng w) with
  | Some c =>
      match state c with
      | suspended =>
          let w := log [CtxResume] w in
          match on_resume c with
          | resolves =>
              (Normal,
               with_eng (set_ctx (Some (mkCtx running (currentTime c)
                                              (sampleRate c) (on_resume c))))
                        w)
          | rejects => (Throw, w)
          | never_settles => (Pending, w)
          end
      | _ => (Normal, w)
      end
  | None => (Normal, w)
  end.

(** [o.stop()] on a tracked oscillator: the call is made; whether it raises
    is the backend's. *)
Definition osc_stop (o : NodeId) : M := fun w =>
  if stop_throws host (trace w) o
  then (Throw, log [StopNode o None] w)
  else (Normal, log [StopNode o None] w).

(** [n.disconnect()]. *)
Definition disconnect (n : NodeId) : M := act (log [Disconnect n]).

(** [stop]. *)
Definition stop : M :=
  act (with_eng (set_isPlaying false)) ;;
  (fun w =>
     match melodyInterval (eng w) with
     | Some id =>
         (act (log [ClearInterval id]) ;;
          act (with_intervals
                 (filter (fun e => negb (Pos.eqb (fst e) id)))) ;;
          act (with_eng (set_melodyInterval None))) w
     | None => (Normal, w)
     end) ;;
  (fun w =>
     forEach (fun o => try_catch (osc_stop o ;; disconnect o))
             (currentOscillators (eng w)) w) ;;
  act (with_eng (set_currentOscillators [])) ;;
  (fun w =>
     match masterGain (eng w) with
     | Some g =>
         (disconnect g ;; act (with_eng (set_masterGain None))) w
     | None => (Normal, w)
     end).

(** The first block of [play] after [stop]: the master gain and its
    fade-in.  [this.ctx] is dereferenced without a check. *)
Definition createMasterGain : M := fun w =>
  match ctx (eng w) with
  | None => (Throw, w)
  | Some c =>
      let (g, w) := fresh w in
      let w := log [CreateGain g] w in
      let w := with_eng (set_masterGain (Some g)) w in
      let w := log [SetValueAtTime (gain g) 0 (currentTime c)] w in
      let w := log [LinearRampToValueAtTime (gain g) 0.5
                      (currentTime c + 1.0)] w in
      (Normal, log [Connect g destination] w)
  end.

(** [setupEffects].  The loop that fills the impulse response from
    [Math.random()] is one [FillImpulse] call: its samples are unseeded and
    no other step reads them. *)
Definition setupReverb (c : AudioContext) (w : World) : World :=
  match reverbNode (eng w) with
  | Some _ => w
  | None =>
      let (r, w) := fresh w in
      let w := log [CreateConvolver r] w in
      let w := with_eng (set_reverbNode (Some r)) w in
      let rate := sampleRate c in
      let length := rate * 3.0 in
      let (b, w) := fresh w in
      let w := log [CreateBuffer b 2 length rate] w in
      let w := log [FillImpulse b] w in
      log [SetBuffer r b] w
  end.

Definition setupDelay (w : World) : World :=
  match delayNode (eng w) with
  | Some _ => w
  | None =>
      let (d, w) := fresh w in
      let w := log [CreateDelay d] w in
      let w := with_eng (set_delayNode (Some d)) w in
      let w := log [SetValue (delayTime d) 0.5] w in
      let (fb, w) := fresh w in
      let w := log [CreateGain fb] w in
      let w := log [SetValue (gain fb) 0.3] w in
      let w := log [Connect d (node fb)] w in
      log [Connect fb (node d)] w
  end.

Definition setupEffects (w : World) : World :=
  match ctx (eng w), masterGain (eng w) with
  | Some c, Some mg =>
      let w := setupReverb c w in
      let w := setupDelay w in
      let (wet, w) := fresh w in
      let w := log [CreateGain wet] w in
      let w := log [SetValue (gain wet) 0.4] w in
      let w := log [Connect mg (node wet)] w in
      match reverbNode (eng w), delayNode (eng w) with
      | Some r, Some d =>
          let w := log [Connect wet (node r)] w in
          let w := log [Connect wet (node d)] w in
          let w := log [Connect r destination] w in
          log [Connect d destination] w
      | _, _ => w
      end
  | _, _ => w
  end.

(** [startPad]: one pass of the [forEach] body per chord ratio; the
    generator is shared, so its state is threaded. *)
Definition chordOffsets : list Q := [1; 1.5; 1.25].

Definition padTone (t root : Q) (mg : NodeId) (acc : Rng * World) (mult : Q)
  : Rng * World :=
  let (rng, w) := acc in
  let (osc, w) := fresh w in
  let w := log [CreateOscillator osc] w in
  let (d, rng) := call rng in
  let w := log [SetType osc (if gtb d 0.5 then sine else triangle)] w in
  let w := log [SetValue (frequency osc) (root * mult)] w in
  let (g, w) := fresh w in
  let w := log [CreateGain g] w in
  let w := log [SetValue (gain g) 0.08] w in
  let (lfo, w) := fresh w in
  let w := log [CreateOscillator lfo] w in
  let (d, rng) := call rng in
  let w := log [SetValue (frequency lfo) (0.1 + d * 0.2)] w in
  let (lfoGain, w) := fresh w in
  let w := log [CreateGain lfoGain] w in
  let w := log [SetValue (gain lfoGain) 0.02] w in
  let w := log [Connect lfo (node lfoGain)] w in
  let w := log [Connect lfoGain (param (gain g))] w in
  let w := log [Start lfo t] w in
  let w := log [Connect osc (node g)] w in
  let w := log [Connect g (node mg)] w in
  let w := log [Start osc t] w in
  let w := with_eng (push_oscillator osc) w in
  let w := with_eng (push_oscillator lfo) w in
  (rng, w).

Definition startPad (p : MusicalParams) (rng : Rng) (w : World)
  : Rng * World :=
  match ctx (eng w), masterGain (eng w) with
  | Some c, Some mg =>
      let t := currentTime c in
      let root := baseFrequency p / 2 in
      fold_left (padTone t root mg) chordOffsets (rng, w)
  | _, _ => (rng, w)
  end.

(** [startGenerativeMelody]: registers the interval and keeps its handle. *)
Definition startGenerativeMelody (p : MusicalParams) (rng : Rng) (w : World)
  : World :=
  match ctx (eng w) with
  | None => w
  | Some _ =>
      let id := next_timer w in
      let w := mkWorld (eng w) (next_node w) (Pos.succ id)
                       ((id, mkClosure p (scaleNotes p) rng) :: intervals w)
                       (trace w) in
      let w := log [SetInterval id (noteDuration p * 1000)] w in
      with_eng (set_melodyInterval (Some id)) w
  end.

(** What one firing of the interval callback did: returned at the liveness
    guard, failed the emission gate, scheduled a note, or raised (the
    frequency was not a number because [scaleNotes[noteIdx]] was
    [undefined], which [setValueAtTime] refuses with a TypeError). *)
Inductive TickOutcome :=
| Inactive
| Skipped
| Emitted (noteIdx : Z) (octave freq : Q)
| Threw (noteIdx : Z) (octave : Q).

(** The callback handed to [setInterval].  It reads the engine's current
    fields and advances the generator it closes over. *)
Definition melodyCallback (c : MelodyClosure) (w : World)
  : TickOutcome * MelodyClosure * World :=
  match isPlaying (eng w), ctx (eng w), masterGain (eng w) with
  | true, Some cx, Some mg =>
      let params := cl_params c in
      let notes := cl_scaleNotes c in
      let (d, rng) := call (cl_rng c) in
      if gtb d (1 - complexity params) then
        let (d, rng) := call rng in
        let noteIdx := floor (d * inject_Z (Z.of_nat (List.length notes))) in
        let (d, rng) := call rng in
        let octave := if gtb d 0.7 then 2 else 1 in
        let c := mkClosure params notes rng in
        let t := currentTime cx in
        let (osc, w) := fresh w in
        let w := log [CreateOscillator osc] w in
        let w := log [SetType osc sine] w in
        match index notes noteIdx with
        | None => (Threw noteIdx octave, c, w)
        | Some offset =>
            let freq := baseFrequency params
                        * Math_pow host 2 (inject_Z offset / 12) * octave in
            let w := log [SetValueAtTime (frequency osc) freq t] w in
            let (env, w) := fresh w in
            let w := log [CreateGain env] w in
            let w := log [Connect env (node mg)] w in
            let w := log [SetValueAtTime (gain env) 0 t] w in
            let w := log [LinearRampToValueAtTime (gain env) 0.3
                            (t + 0.05)] w in
            let w := log [ExponentialRampToValueAtTime (gain env) 0.001
                            (t + 2.0)] w in
            let w := log [Connect osc (node env)] w in
            let w := log [Start osc t] w in
            let w := log [StopNode osc (Some (t + 2.0))] w in
            let w := log [SetTimeoutCleanup osc env 2100] w in
            (Emitted noteIdx octave freq, c, w)
        end
      else (Skipped, mkClosure params notes rng, w)
  | _, _, _ => (Inactive, c, w)
  end.

(** The timer table. *)
Fixpoint find_interval (id : TimerId) (l : list (TimerId * MelodyClosure))
  : option MelodyClosure :=
  match l with
  | [] => None
  | (k, c) :: rest => if Pos.eqb k id then Some c else find_interval id rest
  end.

Fixpoint update_interval (id : TimerId) (c' : MelodyClosure)
  (l : list (TimerId * MelodyClosure)) : list (TimerId * MelodyClosure) :=
  match l with
  | [] => []
  | (k, c) :: rest =>
      if Pos.eqb k id then (k, c') :: rest
      else (k, c) :: update_interval id c' rest
  end.

(** The audio clock as the host advances it between callbacks. *)
Definition at_time (t : Q) (e : Engine) : Engine :=
  match ctx e with
  | Some c => set_ctx (Some (mkCtx (state c) t (sampleRate c) (on_resume c))) e
  | None => e
  end.

(** The host fires interval [id] while the audio clock reads [t]: a cleared
    interval runs nothing; otherwise the callback runs and the mutations of
    its captured generator persist. *)
Definition fire (id : TimerId) (t : Q) (w : World)
  : option TickOutcome * World :=
  match find_interval id (intervals w) with
  | None => (None, w)
  | Some c =>
      let '(o, c', w') := melodyCallback c (with_eng (at_time t) w) in
      (Some o, with_intervals (update_interval id c') w')
  end.

(** Successive firings of one interval, one per clock reading. *)
Fixpoint ticks (id : TimerId) (clock : list Q) (w : World)
  : list (option TickOutcome) * World :=
  match clock with
  | [] => ([], w)
  | t :: rest =>
      let (o, w) := fire id t w in
      let (os, w) := ticks id rest w in
      (o :: os, w)
  end.

(** The firings of the interval the engine currently holds. *)
Definition session_ticks (clock : list Q) (w : World)
  : list (option TickOutcome) * World :=
  match melodyInterval (eng w) with
  | Some id => ticks id clock w
  | None => ([], w)
  end.

(** [play].  The two [await]s are the points where the method can stop
    short: the first rejects or hangs with [ctx.resume()]; the second always
    continues, [setupEffects] having no [await] of its own.  No other task is
    interleaved here. *)
Definition play (params : MusicalParams) (memoryId : JSString) : M := fun w =>
  match ctx (eng w) with
  | None => (Normal, w)
  | Some _ =>
      (resume ;;
       stop ;;
       createMasterGain ;;
       act setupEffects ;;
       (fun w =>
          let rng := getRandomFromSeed memoryId in
          let (rng, w) := startPad params rng w in
          let w := startGenerativeMelody params rng w in
          (Normal, with_eng (set_isPlaying true) w))) w
  end.

End Methods.

(** ** Observations on runs *)

(** The backend calls made between two worlds of one run. *)
Definition events_since (w w' : World) : list Event :=
  skipn (List.length (trace w)) (trace w').

(** The waveform assignments [osc.type = ...], in order. *)
Definition timbres (evs : list Event) : list (NodeId * OscType) :=
  flat_map (fun e => match e with SetType n ty => [(n, ty)] | _ => [] end) evs.

(** The direct assignments [node.frequency.value = v], in order. *)
Definition frequencies (evs : list Event) : list (NodeId * Q) :=
  flat_map (fun e => match e with
                     | SetValue (frequency n) v => [(n, v)]
                     | _ => []
                     end) evs.

(** The direct assignments [node.gain.value = v], in order. *)
Definition gains (evs : list Event) : list (NodeId * Q) :=
  flat_map (fun e => match e with
                     | SetValue (gain n) v => [(n, v)]
                     | _ => []
                     end) evs.

(** The nodes started, in order. *)
Definition started (evs : list Event) : list NodeId :=
  flat_map (fun e => match e with Start n _ => [n] | _ => [] end) evs.

(** The musical choices of the pad as a listener hears them: waveforms and
    frequency assignments without the node references. *)
Definition pad_choices (evs : list Event) : list OscType * list Q :=
  (map snd (timbres evs), map snd (frequencies evs)).

(** Whether a firing scheduled a note, and how many of a run did. *)
Definition is_emit (o : option TickOutcome) : bool :=
  match o with
  | Some (Emitted _ _ _) => true
  | _ => false
  end.

Definition emitted (os : list (option TickOutcome)) : nat :=
  List.length (filter is_emit os).

(** The liveness guard of the interval callback. *)
Definition live (w : World) : Prop :=
  isPlaying (eng w) = true /\ ctx (eng w) <> None /\ masterGain (eng w) <> None.

(** A generator that replays a given sequence of draws. *)
Definition from_stream (f : nat -> Q) : Rng :=
  mkRng 0%nat (fun i => (f i, S i)).

(** The draws of a generator all lie in [0, 1). *)
Definition unit_range (r : Rng) : Prop :=
  forall k, (0 <= draw k r /\ draw k r < 1)%Q.

(** Classes of backend calls: teardown calls are those [stop] makes. *)
Definition is_teardown (e : Event) : bool :=
  match e with
  | ClearInterval _ | StopNode _ None | Disconnect _ => true
  | _ => false
  end.

Definition is_build (e : Event) : bool :=
  match e with
  | CtxResume | ClearInterval _ | StopNode _ None | Disconnect _ => false
  | _ => true
  end.

(** ** The callback seen from the generator

    Closed forms, in terms of the positions [draw 0], [draw 1], [draw 2] of
    the captured generator, of what a firing that passes the liveness guard
    decides.  The theorems below relate [melodyCallback] to them. *)

Section Views.

Variable host : Host.

Local Open Scope Q_scope.

(** The emission test [rng() > (1 - params.complexity)] on the next draw. *)
Definition gate (c : MelodyClosure) : bool :=
  gtb (draw 0 (cl_rng c)) (1 - complexity (cl_params c)).

Definition tick_noteIdx (c : MelodyClosure) : Z :=
  floor (draw 1 (cl_rng c) * inject_Z (Z.of_nat (List.length (cl_scaleNotes c)))).

Definition tick_octave (c : MelodyClosure) : Q :=
  if gtb (draw 2 (cl_rng c)) 0.7 then 2 else 1.

Definition tick_outcome (c : MelodyClosure) : TickOutcome :=
  if gate c then
    match index (cl_scaleNotes c) (tick_noteIdx c) with
    | Some offset =>
        Emitted (tick_noteIdx c) (tick_octave c)
                (baseFrequency (cl_params c)
                 * Math_pow host 2 (inject_Z offset / 12) * tick_octave c)
    | None => Threw (tick_noteIdx c) (tick_octave c)
    end
  else Skipped.

(** How many draws a firing consumed, read off its outcome. *)
Definition draws_of (o : option TickOutcome) : nat :=
  match o with
  | None | Some Inactive => 0
  | Some Skipped => 1
  | Some (Emitted _ _ _) | Some (Threw _ _) => 3
  end.

(** The draws a run of firings consumed in all. *)
Definition consumed (os : list (option TickOutcome)) : nat :=
  fold_right (fun o k => (draws_of o + k)%nat) 0%nat os.

(** Whether a firing passed the emission gate, and how many of a run did. *)
Definition passed_gate (o : option TickOutcome) : bool :=
  match o with
  | Some (Emitted _ _ _) | Some (Threw _ _) => true
  | _ => false
  end.

Definition passes (os : list (option TickOutcome)) : nat :=
  List.length (filter passed_gate os).

Definition tick_closure (c : MelodyClosure) : MelodyClosure :=
  mkClosure (cl_params c) (cl_scaleNotes c)
            (advance (draws_of (Some (tick_outcome c))) (cl_rng c)).

(** [n] live firings in a row. *)
Fixpoint run (n : nat) (c : MelodyClosure) : list TickOutcome * MelodyClosure :=
  match n with
  | O => ([], c)
  | S n' =>
      let (os, c') := run n' (tick_closure c) in
      (tick_outcome c :: os, c')
  end.

(** The waveform a pad tone takes from its draw, the rate its modulator
    takes from the next one, and the calls one pass of the [forEach] body of
    [startPad] makes when the next free node reference is [k]. *)
Definition pad_timbre (d : Q) : OscType := if gtb d 0.5 then sine else triangle.

Definition pad_rate (d : Q) : Q := 0.1 + d * 0.2.

Definition pad_tone_calls (k : NodeId) (t root mult : Q) (mg : NodeId)
  (d_timbre d_rate : Q) : list Event :=
  [ CreateOscillator k;
    SetType k (pad_timbre d_timbre);
    SetValue (frequency k) (root * mult);
    CreateGain (1 + k);
    SetValue (gain (1 + k)) 0.08;
    CreateOscillator (2 + k);
    SetValue (frequency (2 + k)) (pad_rate d_rate);
    CreateGain (3 + k);
    SetValue (gain (3 + k)) 0.02;
    Connect (2 + k) (node (3 + k));
    Connect (3 + k) (param (gain (1 + k)));
    Start (2 + k) t;
    Connect k (node (1 + k));
    Connect (1 + k) (node mg);
    Start k t ]%nat.

(** The calls [stop] makes on the tracked voices: [stop()] on each, and
    [disconnect()] on those whose [stop()] returned. *)
Fixpoint voices_teardown (tr : list Event) (os : list NodeId) : list Event :=
  match os with
  | [] => []
  | o :: rest =>
      let evs := if stop_throws host tr o
                 then [StopNode o None]
                 else [StopNode o None; Disconnect o] in
      evs ++ voices_teardown (tr ++ evs) rest
  end.

Definition timer_teardown (w : World) : list Event :=
  match melodyInterval (eng w) with
  | Some id => [ClearInterval id]
  | None => []
  end.

Definition master_teardown (w : World) : list Event :=
  match masterGain (eng w) with
  | Some g => [Disconnect g]
  | None => []
  end.

Definition teardown_calls (w : World) : list Event :=
  timer_teardown w
  ++ voices_teardown (trace w ++ timer_teardown w) (currentOscillators (eng w))
  ++ master_teardown w.

(** The world [stop] leaves. *)
Definition stopped (w : World) : World :=
  mkWorld
    (mkEngine (ctx (eng w)) false None None (reverbNode (eng w))
              (delayNode (eng w)) [])
    (next_node w) (next_timer w)
    (match melodyInterval (eng w) with
     | Some id => filter (fun e => negb (Pos.eqb (fst e) id)) (intervals w)
     | None => intervals w
     end)
    (trace w ++ teardown_calls w).

End Views.

(** The interval entry the engine currently holds. *)
Definition session_closure (w : World) : option MelodyClosure :=
  match melodyInterval (eng w) with
  | Some id => find_interval id (intervals w)
  | None => None
  end.

(** The emit/skip pattern emit, skip, emit, skip, ... of length [n]. *)
Fixpoint alternating (n : nat) (b : bool) : list bool :=
  match n with
  | O => []
  | S n' => b :: alternating n' (negb b)
  end.

(** Scale entries: strictly ascending offsets, and the largest offset. *)
Fixpoint ascending (l : list Z) : bool :=
  match l with
  | a :: (b :: _) as rest => (a <? b)%Z && ascending rest
  | _ => true
  end.

Definition max_offset (l : list Z) : Z := fold_right Z.max 0%Z l.

(** Reading of a scale entry as ascending and reaching past one octave. *)
Definition spans_past_octave (notes : list Z) : Prop :=
  ascending notes = true /\ (12 < max_offset notes)%Z.

(** The names of the scale entries that reach past one octave. *)
Definition past_octave_names : list JSString :=
  map fst (filter (fun e => (12 <? max_offset (snd e))%Z) scales).

(** The beats per minute behind the tick period are the supplied tempo,
    with no default put in its place. *)
Definition tempo_used_directly (p : MusicalParams) : Prop :=
  (bpm p == tempo p)%Q.

(** Order of calls in a log: every teardown call comes before every
    [ctx.resume()]. *)
Definition teardown_first (evs : list Event) : Prop :=
  forall i j e,
    nth_error evs i = Some CtxResume ->
    nth_error evs j = Some e -> is_teardown e = true -> (j < i)%nat.

(** ** Sample inputs *)

Module Sample.

Local Open Scope Q_scope.

(** A host whose sine is a rational stand-in with values in [-1, 1), whose
    power is affine in the exponent, and whose oscillators refuse a second
    [stop()]. *)
Definition stopped_before (tr : list Event) (o : NodeId) : bool :=
  existsb (fun e => match e with
                    | StopNode n _ => Nat.eqb n o
                    | _ => false
                    end) tr.

Definition host : Host :=
  mkHost (fun h => inject_Z ((h * h) mod 1009 - 504) / 505)
         (fun b e => 1 + e)
         stopped_before.

(** The fallback parameters of the analysis service. *)
Definition params : MusicalParams :=
  mkParams (lit "pentatonic") 261.63 80 0.5 (lit "ethereal").

Definition memoryId : JSString := lit "mem-1".

(** An engine as its constructor leaves it, on a suspended context. *)
Definition fresh_engine : Engine :=
  mkEngine (Some (mkCtx suspended 0 48000 resolves)) false None None None None
           [].

Definition initial : World := mkWorld fresh_engine 0%nat 1%positive [] [].

(** The world after one [play], with the context suspended again by the
    platform while the session is alive. *)
Definition playing : World :=
  let w := snd (play host params memoryId initial) in
  with_eng (set_ctx (Some (mkCtx suspended 5 48000 resolves))) w.

(** The same parameters with another tempo or scale. *)
Definition with_tempo (t : Q) : MusicalParams :=
  mkParams (scale params) (baseFrequency params) t (complexity params)
           (mood params).

Definition with_scale (s : JSString) : MusicalParams :=
  mkParams s (baseFrequency params) (tempo params) (complexity params)
           (mood params).

Definition with_complexity (c : Q) : MusicalParams :=
  mkParams (scale params) (baseFrequency params) (tempo params) c
           (mood params).

(** The first session of [initial], running. *)
Definition first_session : World :=
  snd (play host params memoryId initial).

(** The injected draw sequence 0.9, 0.2, 0.95, 0.3, repeated. *)
Definition injected : Rng :=
  from_stream (fun i => nth (i mod 4) [0.9; 0.2; 0.95; 0.3] 0).

(** A draw sequence that begins with the same four draws and goes on with
    0.1, 0.6 and then zeros. *)
Definition injected_then_low : Rng :=
  from_stream (fun i => nth i [0.9; 0.2; 0.95; 0.3; 0.1; 0.6] 0).

End Sample.

(** ** The engine over time *)

(** The constructor: a context when the platform offers one, every other
    field as initialised in the class body. *)
Definition construct (backend : option AudioContext) : World :=
  mkWorld (mkEngine backend false None None None None []) 0%nat 1%positive
          [] [].

(** What can happen to the engine: a call of one of its public methods, the
    host firing an interval, or the platform changing the context's state
    and clock. *)
Inductive Op :=
| OpResume
| OpPlay (params : MusicalParams) (memoryId : JSString)
| OpStop
| OpFire (id : TimerId) (t : Q)
| OpPlatform (c : AudioContext).

Definition platform (c : AudioContext) (e : Engine) : Engine :=
  match ctx e with
  | Some _ => set_ctx (Some c) e
  | None => e
  end.

Definition step (host : Host) (op : Op) (w : World) : World :=
  match op with
  | OpResume => snd (resume w)
  | OpPlay params memoryId => snd (play host params memoryId w)
  | OpStop => snd (stop host w)
  | OpFire id t => snd (fire host id t w)
  | OpPlatform c => with_eng (platform c) w
  end.

Definition run_ops (host : Host) (ops : list Op) (w : World) : World :=
  fold_left (fun w op => step host op w) ops w.

(** The nodes a log calls [stop] on (with or without a time), the nodes it
    disconnects, and the effect units it creates. *)
Definition stops (evs : list Event) : list NodeId :=
  flat_map (fun e => match e with StopNode n _ => [n] | _ => [] end) evs.

Definition disconnects (evs : list Event) : list NodeId :=
  flat_map (fun e => match e with Disconnect n => [n] | _ => [] end) evs.

Definition is_effect_unit (e : Event) : bool :=
  match e with
  | CreateConvolver _ | CreateDelay _ | CreateBuffer _ _ _ _ => true
  | _ => false
  end.

(** A backend whose [stop()] raises only on a node that was stopped
    before. *)
Definition raises_on_restop_only (host : Host) : Prop :=
  forall tr o, stop_throws host tr o = true -> Sample.stopped_before tr o = true.

(** Single session: the timer table holds the interval the engine holds and
    nothing else, and a set liveness flag comes with a context, a master
    gain, an interval and the six pad units. *)
Definition single_session (w : World) : Prop :=
  match melodyInterval (eng w) with
  | Some id => exists c, intervals w = [(id, c)]
  | None => intervals w = []
  end
  /\ (isPlaying (eng w) = true ->
      ctx (eng w) <> None /\ masterGain (eng w) <> None
      /\ melodyInterval (eng w) <> None
      /\ List.length (currentOscillators (eng w)) = 6%nat).

(** Tracked voices are distinct, allocated, and not yet stopped; every node
    the log stops is allocated, and none is stopped twice. *)
Definition voices_fresh (w : World) : Prop :=
  NoDup (currentOscillators (eng w))
  /\ Forall (fun o => (o < next_node w)%nat /\ ~ In o (stops (trace w)))
            (currentOscillators (eng w))
  /\ Forall (fun n => (n < next_node w)%nat) (stops (trace w))
  /\ NoDup (stops (trace w)).

(** The calls of a firing that schedules a note of frequency [freq] when
    the next free node reference is [k] and the clock reads [t]. *)
Definition note_calls (k : NodeId) (t freq : Q) (mg : NodeId) : list Event :=
  [ CreateOscillator k;
    SetType k sine;
    SetValueAtTime (frequency k) freq t;
    CreateGain (1 + k);
    Connect (1 + k) (node mg);
    SetValueAtTime (gain (1 + k)) 0 t;
    LinearRampToValueAtTime (gain (1 + k)) 0.3 (t + 0.05)%Q;
    ExponentialRampToValueAtTime (gain (1 + k)) 0.001 (t + 2.0)%Q;
    Connect k (node (1 + k));
    Start k t;
    StopNode k (Some (t + 2.0)%Q);
    SetTimeoutCleanup k (1 + k) 2100 ]%nat.

(** The calls a firing can make: it never tears down, resumes the context,
    or registers or clears an interval; the one timer it sets is the
    cleanup timeout of a note. *)
Definition is_note_call (e : Event) : bool :=
  match e with
  | CtxResume | ClearInterval _ | SetInterval _ _ | StopNode _ None
  | Disconnect _ => false
  | _ => true
  end.

(** What a firing of a session seeded by [play] can come to: a skip, or a
    note on a degree of the scale table, one or two times the frequency of
    that degree. *)
Definition well_formed_outcome (host : Host) (p : MusicalParams)
  (notes : list Z) (o : option TickOutcome) : Prop :=
  o = Some Skipped
  \/ exists noteIdx octave offset,
       o = Some (Emitted noteIdx octave
                   (baseFrequency p
                    * Math_pow host 2 (inject_Z offset / 12) * octave)%Q)
       /\ index notes noteIdx = Some offset
       /\ (octave = 1%Q \/ octave = 2%Q).

(** The textbook string hash the seed fold is built after. *)
Definition poly31 (seed : JSString) : Z :=
  fold_left (fun h c => (31 * h + c)%Z) seed 0%Z.

(** ** The caller: the music and navigation handlers of [App]

    The part of the component state these handlers read and write, and the
    handlers themselves.  Each handler runs against the committed state and
    to its end; a [play] that a handler starts without awaiting it is run
    to its end as well. *)

Module App.

(** [Memory] of [../types], with the fields [handleCreateMemory] fills. *)
Record Memory := mkMemory {
  id : JSString;
  imageUrl : JSString;
  diary : JSString;
  date : JSString;
  keywords : list JSString;
  musicalParams : MusicalParams;
  title : JSString
}.

(** What [generateMemoryMetadata] resolves to. *)
Record Metadata := mkMetadata {
  md_keywords : list JSString;
  md_musicalParams : MusicalParams;
  md_title : JSString
}.

Inductive View := create | orb.

Record State := mkState {
  view : View;
  memories : list Memory;
  currentMemoryIndex : Z;
  orbShapeIndex : Z;
  selectedImage : option JSString;
  diaryEntry : JSString;
  isProcessing : bool;
  isPlaying : bool
}.

Definition set_isPlaying (b : bool) (a : State) : State :=
  mkState (view a) (memories a) (currentMemoryIndex a) (orbShapeIndex a)
          (selectedImage a) (diaryEntry a) (isProcessing a) b.

Definition set_isProcessing (b : bool) (a : State) : State :=
  mkState (view a) (memories a) (currentMemoryIndex a) (orbShapeIndex a)
          (selectedImage a) (diaryEntry a) b (isPlaying a).

(** [setCurrentMemoryIndex(next)] followed by [setOrbShapeIndex(0)]. *)
Definition go_to (next : Z) (a : State) : State :=
  mkState (view a) (memories a) next 0 (selectedImage a) (diaryEntry a)
          (isProcessing a) (isPlaying a).

(** Truthiness of a string: the empty string is the only falsy one. *)
Definition truthy_str (s : JSString) : bool :=
  match s with
  | [] => false
  | _ => true
  end.

(** [a % b] on integer-valued numbers: the remainder takes the sign of the
    dividend. *)
Definition js_rem (a b : Z) : Z := Z.rem a b.

(** [currentMemoryIndex >= 0 && memories.length > 0
     ? memories[currentMemoryIndex] : null]; an index past the end gives
    [undefined], which the handlers treat like [null]. *)
Definition activeMemory (a : State) : option Memory :=
  if (0 <=? currentMemoryIndex a)%Z
     && (0 <? List.length (memories a))%nat
  then index (memories a) (currentMemoryIndex a)
  else None.

Section Handlers.

Variable host : Host.

(** [playMemoryMusic]: [setIsPlaying(true)] after the awaited [play]; a
    rejection is caught and logged. *)
Definition playMemoryMusic (mem : Memory) (s : State * World)
  : Completion * (State * World) :=
  let (a, w) := s in
  match play host (musicalParams mem) (id mem) w with
  | (Normal, w') => (Normal, (set_isPlaying true a, w'))
  | (Throw, w') => (Normal, (a, w'))
  | (Pending, w') => (Pending, (a, w'))
  end.

(** [toggleMusic]. *)
Definition toggleMusic (s : State * World) : Completion * (State * World) :=
  let (a, w) := s in
  match activeMemory a with
  | None => (Normal, s)
  | Some mem =>
      if isPlaying a then
        match stop host w with
        | (Normal, w') => (Normal, (set_isPlaying false a, w'))
        | (r, w') => (r, (a, w'))
        end
      else playMemoryMusic mem s
  end.

(** The updater of [nextMemory] and [prevMemory]: the music of
    [memories[next]] is started when that entry exists. *)
Definition move_to (next : Z) (s : State * World) : State * World :=
  let (a, w) :=
    match index (memories (fst s)) next with
    | Some mem => snd (playMemoryMusic mem s)
    | None => s
    end in
  (go_to next a, w).

(** [nextMemory]. *)
Definition nextMemory (s : State * World) : State * World :=
  let len := Z.of_nat (List.length (memories (fst s))) in
  if (len =? 0)%Z then s
  else move_to (js_rem (currentMemoryIndex (fst s) + 1) len) s.

(** [prevMemory]. *)
Definition prevMemory (s : State * World) : State * World :=
  let len := Z.of_nat (List.length (memories (fst s))) in
  if (len =? 0)%Z then s
  else move_to (js_rem (currentMemoryIndex (fst s) - 1 + len) len) s.

(** [handleCreateMemory], for the identifier, the date string and the
    metadata the platform and the analysis service supply. *)
Definition handleCreateMemory (newId dateStr : JSString)
  (metadata : Metadata) (s : State * World) : Completion * (State * World) :=
  let (a, w) := s in
  match selectedImage a with
  | None => (Normal, s)
  | Some image =>
      if truthy_str image && truthy_str (diaryEntry a) then
        let a := set_isProcessing true a in
        match resume w with
        | (Normal, w) =>
            let newMemory :=
              mkMemory newId image (diaryEntry a) dateStr
                       (md_keywords metadata) (md_musicalParams metadata)
                       (md_title metadata) in
            let updatedMemories := memories a ++ [newMemory] in
            let a :=
              mkState orb updatedMemories
                      (Z.of_nat (List.length updatedMemories) - 1)
                      (orbShapeIndex a) None [] false (isPlaying a) in
            playMemoryMusic newMemory (a, w)
        | (r, w) => (r, (a, w))
        end
      else (Normal, s)
  end.

(** The handler of the "add another memory" button. *)
Definition addAnotherMemory (s : State * World)
  : Completion * (State * World) :=
  let (a, w) := s in
  let a := mkState create (memories a) (currentMemoryIndex a)
                   (orbShapeIndex a) None [] (isProcessing a)
                   (isPlaying a) in
  match stop host w with
  | (Normal, w') => (Normal, (set_isPlaying false a, w'))
  | (r, w') => (r, (a, w'))
  end.

End Handlers.

(** The state of a freshly mounted component. *)
Definition initial : State := mkState create [] (-1) 0 None [] false false.

End App.

(** The index points at a memory. *)
Definition points_at_memory (a : App.State) : Prop :=
  (0 <= App.currentMemoryIndex a
   < Z.of_nat (List.length (App.memories a)))%Z.

(** The play flag of the component agrees with the liveness flag of the
    engine. *)
Definition flags_agree (s : App.State * World) : Prop :=
  App.isPlaying (fst s) = isPlaying (eng (snd s)).

(** The session the engine holds is the one [play] builds for a memory. *)
Definition plays_memory (host : Host) (mem : App.Memory) (w : World) : Prop :=
  live w
  /\ session_closure w
     = Some (mkClosure (App.musicalParams mem)
                       (scaleNotes (App.musicalParams mem))
                       (advance 6 (getRandomFromSeed host (App.id mem)))).

(** ** Sample inputs for the engine over time and for the caller *)

Module Scenario.

Local Open Scope Q_scope.

(** The first session, its context suspended again by the platform and
    refusing to resume. *)
Definition refusing : World :=
  with_eng (set_ctx (Some (mkCtx suspended 9 48000 rejects)))
           Sample.first_session.

(** An engine constructed on a platform without audio. *)
Definition disabled : World := construct None.

(** A run from construction: a session, two firings, a stop, a second
    session, a firing of it. *)
Definition history : list Op :=
  [ OpPlay Sample.params Sample.memoryId;
    OpFire 1%positive 1; OpFire 1%positive 2;
    OpStop;
    OpPlay (Sample.with_scale (lit "minor")) (lit "mem-2");
    OpFire 2%positive 3 ].

Definition memory (name : string) : App.Memory :=
  App.mkMemory (lit name) (lit "data:image") (lit "a day") (lit "Monday")
               [lit "Memory"] Sample.params (lit "Untitled Memory").

(** Three memories, the last one shown, its music playing. *)
Definition browsing : App.State :=
  App.mkState App.orb [memory "m1"; memory "m2"; memory "m3"] 2 0 None []
              false true.

(** The creation form filled in, one memory already stored. *)
Definition filled_form : App.State :=
  App.mkState App.create [memory "m1"] 0 0 (Some (lit "data:image"))
              (lit "dear diary") false false.

(** The fallback answer of the analysis service. *)
Definition metadata : App.Metadata :=
  App.mkMetadata [lit "Memory"; lit "Time"; lit "Life"] Sample.params
                 (lit "Untitled Memory").

End Scenario.

(** * Properties *)

Section Proofs.

Variable host : Host.

Local Open Scope Q_scope.

(** ** The generator *)

Lemma call_draw (r : Rng) : call r = (draw 0 r, advance 1 r).
Proof.
  unfold draw. simpl. destruct (call r); reflexivity.
Qed.

Lemma advance_add (a b : nat) (r : Rng) :
  advance (a + b) r = advance b (advance a r).
Proof.
  revert r. induction a as [|a IH]; intros r; simpl; [reflexivity|].
  apply IH.
Qed.

Lemma draw_advance (a k : nat) (r : Rng) :
  draw k (advance a r) = draw (a + k) r.
Proof.
  unfold draw. now rewrite advance_add.
Qed.

Lemma advance_seeded (seed : JSString) (k : nat) :
  advance k (getRandomFromSeed host seed)
  = mkRng (seed_hash seed + Z.of_nat k)%Z (seeded_next host).
Proof.
  unfold getRandomFromSeed. generalize (seed_hash seed) as h.
  induction k as [|k IH]; intros h.
  - simpl. now rewrite Z.add_0_r.
  - cbn [advance call snd rng_next rng_cur seeded_next].
    rewrite IH. f_equal. lia.
Qed.

Lemma draw_seeded (seed : JSString) (k : nat) :
  draw k (getRandomFromSeed host seed)
  = (let x := Math_sin host (seed_hash seed + Z.of_nat k) * 10000 in
     x - inject_Z (floor x)).
Proof.
  unfold draw. rewrite advance_seeded. reflexivity.
Qed.

Lemma frac_unit (x : Q) : 0 <= x - inject_Z (Qfloor x) /\ x - inject_Z (Qfloor x) < 1.
Proof.
  pose proof (Qfloor_le x) as Hle.
  pose proof (Qlt_floor x) as Hlt.
  rewrite inject_Z_plus in Hlt. change (inject_Z 1) with 1 in Hlt.
  split; lra.
Qed.

Lemma seeded_unit_range (seed : JSString) :
  unit_range (getRandomFromSeed host seed).
Proof.
  intros k. rewrite draw_seeded. apply frac_unit.
Qed.

Lemma unit_range_advance (a : nat) (r : Rng) :
  unit_range r -> unit_range (advance a r).
Proof.
  intros H k. rewrite draw_advance. apply H.
Qed.

(** ** Comparisons *)

Lemma gtb_true (a b : Q) : gtb a b = true <-> b < a.
Proof.
  unfold gtb. rewrite negb_true_iff, <- not_true_iff_false, Qle_bool_iff.
  split; [apply Qnot_le_lt | apply Qlt_not_le].
Qed.

Lemma gtb_false (a b : Q) : gtb a b = false <-> a <= b.
Proof.
  unfold gtb. rewrite negb_false_iff. apply Qle_bool_iff.
Qed.

Lemma gtb_comp (a b b' : Q) : b == b' -> gtb a b = gtb a b'.
Proof.
  intros H. unfold gtb. now rewrite H.
Qed.

(** ** The interval callback *)

Lemma index_in_range (notes : list Z) (d : Q) :
  notes <> [] -> 0 <= d -> d < 1 ->
  exists offset,
    index notes (floor (d * inject_Z (Z.of_nat (List.length notes))))
    = Some offset.
Proof.
  intros Hne H0 H1.
  assert (Hn : (0 < List.length notes)%nat)
    by (destruct notes; [congruence | simpl; lia]).
  set (n := List.length notes) in *.
  assert (HnQ : 0 < inject_Z (Z.of_nat n)).
  { change 0 with (inject_Z 0). rewrite <- Zlt_Qlt. lia. }
  set (x := d * inject_Z (Z.of_nat n)).
  assert (Hx0 : 0 <= x).
  { unfold x. apply Qmult_le_0_compat; [exact H0 | now apply Qlt_le_weak]. }
  assert (Hx1 : x < inject_Z (Z.of_nat n)).
  { unfold x. rewrite <- (Qmult_1_l (inject_Z (Z.of_nat n))) at 2.
    now apply Qmult_lt_compat_r. }
  assert (Hf0 : (0 <= Qfloor x)%Z).
  { change 0%Z with (Qfloor 0). now apply Qfloor_resp_le. }
  assert (Hf1 : (Qfloor x < Z.of_nat n)%Z).
  { rewrite Zlt_Qlt. eapply Qle_lt_trans; [apply Qfloor_le | exact Hx1]. }
  unfold index, floor. fold n. fold x.
  destruct (Z.ltb_spec (Qfloor x) 0); [lia|].
  destruct (nth_error notes (Z.to_nat (Qfloor x))) eqn:E; [eauto|].
  apply nth_error_None in E. fold n in E. lia.
Qed.

Lemma melodyCallback_inactive (c : MelodyClosure) (w : World) :
  ~ live w -> melodyCallback host c w = (Inactive, c, w).
Proof.
  unfold live, melodyCallback. intros H.
  destruct (isPlaying (eng w)); [|reflexivity].
  destruct (ctx (eng w)); [|reflexivity].
  destruct (masterGain (eng w)); [|reflexivity].
  exfalso. apply H. repeat split; congruence.
Qed.

Lemma melodyCallback_live (c : MelodyClosure) (w : World) :
  live w ->
  exists w',
    melodyCallback host c w = (tick_outcome host c, tick_closure host c, w')
    /\ eng w' = eng w /\ intervals w' = intervals w
    /\ next_timer w' = next_timer w.
Proof.
  unfold live, melodyCallback. intros (Hp & Hc & Hm).
  destruct (isPlaying (eng w)); [|discriminate].
  destruct (ctx (eng w)) as [cx|]; [|congruence].
  destruct (masterGain (eng w)) as [mg|]; [|congruence].
  unfold tick_closure, tick_outcome.
  rewrite (call_draw (cl_rng c)). fold (gate c).
  destruct (gate c).
  - rewrite (call_draw (advance 1 (cl_rng c))).
    rewrite (call_draw (advance 1 (advance 1 (cl_rng c)))).
    change (draw 0 (advance 1 (cl_rng c))) with (draw 1 (cl_rng c)).
    change (draw 0 (advance 1 (advance 1 (cl_rng c))))
      with (draw 2 (cl_rng c)).
    change (advance 1 (advance 1 (advance 1 (cl_rng c))))
      with (advance 3 (cl_rng c)).
    fold (tick_noteIdx c). fold (tick_octave c).
    cbn [fresh log with_eng].
    destruct (index (cl_scaleNotes c) (tick_noteIdx c));
      eexists; (split; [reflexivity|]); cbn; auto.
  - eexists. split; [reflexivity|]. auto.
Qed.

(** ** Firing an interval *)

Lemma find_update (id : TimerId) (c c' : MelodyClosure)
  (l : list (TimerId * MelodyClosure)) :
  find_interval id l = Some c ->
  find_interval id (update_interval id c' l) = Some c'.
Proof.
  induction l as [|[k x] l IH]; simpl; [discriminate|].
  destruct (Pos.eqb k id) eqn:E; simpl; rewrite E; auto.
Qed.

Lemma live_at_time (t : Q) (w : World) : live w -> live (with_eng (at_time t) w).
Proof.
  unfold live, at_time. intros (Hp & Hc & Hm). simpl.
  destruct (ctx (eng w)); [|congruence].
  simpl. repeat split; congruence.
Qed.

Lemma fire_live (id : TimerId) (t : Q) (c : MelodyClosure) (w : World) :
  live w -> find_interval id (intervals w) = Some c ->
  exists w',
    fire host id t w = (Some (tick_outcome host c), w')
    /\ live w'
    /\ find_interval id (intervals w') = Some (tick_closure host c)
    /\ melodyInterval (eng w') = melodyInterval (eng w).
Proof.
  intros Hl Hf. unfold fire. rewrite Hf.
  destruct (melodyCallback_live c (live_at_time t Hl))
    as (w' & E & He & Hi & _).
  rewrite E. eexists. split; [reflexivity|].
  assert (Hl' : live w').
  { unfold live. rewrite He. apply (live_at_time t Hl). }
  repeat split; try apply Hl'.
  - cbn [with_intervals intervals]. rewrite Hi. cbn [with_eng intervals].
    now apply find_update with (c := c).
  - cbn [with_intervals eng]. rewrite He. cbn [with_eng eng].
    unfold at_time. now destruct (ctx (eng w)).
Qed.

Lemma ticks_live (id : TimerId) (clock : list Q) :
  forall (c : MelodyClosure) (w : World),
    live w -> find_interval id (intervals w) = Some c ->
    fst (ticks host id clock w)
    = map Some (fst (run host (List.length clock) c))
    /\ live (snd (ticks host id clock w))
    /\ find_interval id (intervals (snd (ticks host id clock w)))
       = Some (snd (run host (List.length clock) c))
    /\ melodyInterval (eng (snd (ticks host id clock w)))
       = melodyInterval (eng w).
Proof.
  induction clock as [|t clock IH]; intros c w Hl Hf.
  - simpl. auto.
  - destruct (fire_live id t Hl Hf) as (w' & E & Hl' & Hf' & Hm').
    cbn [ticks List.length run]. rewrite E.
    destruct (IH _ _ Hl' Hf') as (E1 & E2 & E3 & E4).
    destruct (ticks host id clock w') as [os w''].
    destruct (run host (List.length clock) (tick_closure host c)) as [os' c''].
    cbn [fst snd] in *. rewrite E1. repeat split; try apply E2; auto.
    congruence.
Qed.

(** ** Runs of live firings *)

Lemma run_length (n : nat) :
  forall c, List.length (fst (run host n c)) = n.
Proof.
  induction n as [|n IH]; intros c; simpl; [reflexivity|].
  specialize (IH (tick_closure host c)).
  destruct (run host n (tick_closure host c)). simpl in *. now rewrite IH.
Qed.

Lemma run_closure (n : nat) :
  forall c,
    snd (run host n c)
    = mkClosure (cl_params c) (cl_scaleNotes c)
                (advance (consumed (map Some (fst (run host n c))))
                         (cl_rng c)).
Proof.
  induction n as [|n IH]; intros c.
  - simpl. now destruct c.
  - cbn [run]. specialize (IH (tick_closure host c)).
    destruct (run host n (tick_closure host c)) as [os c'].
    cbn [fst snd consumed fold_right map] in *. rewrite IH.
    unfold tick_closure. cbn [cl_params cl_scaleNotes cl_rng].
    now rewrite advance_add.
Qed.

Lemma consumed_live (n : nat) :
  forall c,
    consumed (map Some (fst (run host n c)))
    = (n + 2 * passes (map Some (fst (run host n c))))%nat.
Proof.
  induction n as [|n IH]; intros c; [reflexivity|].
  cbn [run]. specialize (IH (tick_closure host c)).
  destruct (run host n (tick_closure host c)) as [os c'].
  cbn [fst map] in *.
  change (consumed (Some (tick_outcome host c) :: map Some os))
    with (draws_of (Some (tick_outcome host c)) + consumed (map Some os))%nat.
  rewrite IH. unfold passes. cbn [filter].
  unfold tick_outcome.
  destruct (gate c); [|simpl; lia].
  destruct (index (cl_scaleNotes c) (tick_noteIdx c)); simpl; lia.
Qed.

(** C10.  A firing that passes the liveness guard reads one draw when the
    emission gate fails and three when it passes: the gate from the next
    draw, the scale degree from the one after, the octave from the third.
    Hence after any number of live firings the captured generator stands at
    the number of firings plus twice the number that passed the gate. *)
Theorem tick_draw_count (c : MelodyClosure) (w : World)
  (id : TimerId) (clock : list Q) :
  live w ->
  find_interval id (intervals w) = Some c ->
  let o := fst (fst (melodyCallback host c w)) in
  let c' := snd (fst (melodyCallback host c w)) in
  let r := ticks host id clock w in
  (gate c = false -> o = Skipped /\ cl_rng c' = advance 1 (cl_rng c))
  /\ (gate c = true ->
      (exists freq,
         o = Emitted (tick_noteIdx c) (tick_octave c) freq
         \/ o = Threw (tick_noteIdx c) (tick_octave c))
      /\ cl_rng c' = advance 3 (cl_rng c))
  /\ draws_of (Some o) = (if gate c then 3 else 1)%nat
  /\ option_map cl_rng (find_interval id (intervals (snd r)))
     = Some (advance (List.length clock + 2 * passes (fst r)) (cl_rng c)).
Proof.
  intros Hl Hf o c' r.
  destruct (melodyCallback_live c Hl) as (w' & E & _).
  subst o c'. rewrite E. cbn [fst snd].
  unfold tick_closure, tick_outcome. cbn [cl_rng].
  split; [|split; [|split]].
  - intros G. now rewrite G.
  - intros G. rewrite G.
    destruct (index (cl_scaleNotes c) (tick_noteIdx c)) as [offset|].
    + split; [|reflexivity]. eexists. left. reflexivity.
    + split; [|reflexivity]. exists 0. right. reflexivity.
  - destruct (gate c); [|reflexivity].
    now destruct (index (cl_scaleNotes c) (tick_noteIdx c)).
  - subst r. destruct (ticks_live id clock Hl Hf) as (E1 & _ & E3 & _).
    rewrite E3, E1. cbn [option_map]. rewrite run_closure.
    cbn [cl_rng]. now rewrite consumed_live.
Qed.

(** ** Generators with draws in [0, 1) *)

Lemma tick_outcome_unit (c : MelodyClosure) :
  unit_range (cl_rng c) -> cl_scaleNotes c <> [] ->
  (gate c = true
   /\ exists freq,
        tick_outcome host c = Emitted (tick_noteIdx c) (tick_octave c) freq)
  \/ (gate c = false /\ tick_outcome host c = Skipped).
Proof.
  intros Hu Hne. unfold tick_outcome.
  destruct (gate c); [left | right; auto].
  split; [reflexivity|].
  destruct (Hu 1%nat) as [H0 H1].
  destruct (index_in_range Hne H0 H1) as [offset E].
  unfold tick_noteIdx at 1. rewrite E. eauto.
Qed.

Lemma is_emit_gate (c : MelodyClosure) :
  unit_range (cl_rng c) -> cl_scaleNotes c <> [] ->
  is_emit (Some (tick_outcome host c)) = gate c.
Proof.
  intros Hu Hne.
  destruct (tick_outcome_unit c Hu Hne) as [[G [f E]]|[G E]];
    now rewrite E, G.
Qed.

Lemma scaleNotes_cases (p : MusicalParams) :
  (scale p = lit "minor" /\ scaleNotes p = minor_scale)
  \/ (scale p <> lit "minor" /\ scaleNotes p = pentatonic_scale).
Proof.
  unfold scaleNotes, scaleName, str_eqb.
  destruct (list_eq_dec Z.eq_dec (scale p) (lit "minor")) as [E|E];
    [left | right]; (split; [exact E | reflexivity]).
Qed.

Lemma scaleNotes_length (p : MusicalParams) :
  List.length (scaleNotes p) = 8%nat.
Proof.
  destruct (scaleNotes_cases p) as [[_ E]|[_ E]]; now rewrite E.
Qed.

Lemma scaleNotes_nonempty (p : MusicalParams) : scaleNotes p <> [].
Proof.
  intros E. pose proof (scaleNotes_length p) as H. now rewrite E in H.
Qed.

Lemma gate_monotone (c1 c2 : MelodyClosure) :
  cl_rng c1 = cl_rng c2 ->
  complexity (cl_params c1) <= complexity (cl_params c2) ->
  gate c1 = true -> gate c2 = true.
Proof.
  unfold gate. intros -> Hc. rewrite !gtb_true. lra.
Qed.

Lemma emitted_cons (o : option TickOutcome) (os : list (option TickOutcome)) :
  emitted (o :: os) = ((if is_emit o then 1 else 0) + emitted os)%nat.
Proof.
  unfold emitted. simpl. now destruct (is_emit o).
Qed.

Lemma tick_closure_position (c : MelodyClosure) (r0 : Rng) (k e : nat) :
  unit_range r0 -> cl_scaleNotes c <> [] ->
  cl_rng c = advance (k + 2 * e) r0 ->
  cl_rng (tick_closure host c)
  = advance (S k + 2 * (e + (if gate c then 1 else 0))) r0.
Proof.
  intros Hu Hne Hr.
  assert (Hc : unit_range (cl_rng c)) by (rewrite Hr; now apply unit_range_advance).
  unfold tick_closure. cbn [cl_rng]. rewrite Hr, <- advance_add.
  f_equal.
  destruct (tick_outcome_unit c Hc Hne) as [[G [f E]]|[G E]];
    rewrite E, G; simpl; lia.
Qed.

Lemma run_monotone (r0 : Rng) (n : nat) :
  unit_range r0 ->
  forall (c1 c2 : MelodyClosure) (k e1 e2 : nat),
    cl_scaleNotes c1 <> [] -> cl_scaleNotes c2 <> [] ->
    complexity (cl_params c1) <= complexity (cl_params c2) ->
    cl_rng c1 = advance (k + 2 * e1) r0 ->
    cl_rng c2 = advance (k + 2 * e2) r0 ->
    (e1 <= e2)%nat ->
    (e1 + emitted (map Some (fst (run host n c1)))
     <= e2 + emitted (map Some (fst (run host n c2))))%nat.
Proof.
  intros Hu. induction n as [|n IH]; intros c1 c2 k e1 e2 N1 N2 Hc R1 R2 He.
  - simpl. unfold emitted. simpl. lia.
  - cbn [run].
    pose proof (tick_closure_position c1 k e1 Hu N1 R1) as P1.
    pose proof (tick_closure_position c2 k e2 Hu N2 R2) as P2.
    assert (U1 : unit_range (cl_rng c1))
      by (rewrite R1; now apply unit_range_advance).
    assert (U2 : unit_range (cl_rng c2))
      by (rewrite R2; now apply unit_range_advance).
    pose proof (is_emit_gate c1 U1 N1) as G1.
    pose proof (is_emit_gate c2 U2 N2) as G2.
    assert (He' : (e1 + (if gate c1 then 1 else 0)
                   <= e2 + (if gate c2 then 1 else 0))%nat).
    { destruct (Nat.eq_dec e1 e2) as [->|Hne].
      - destruct (gate c1) eqn:E1; [|lia].
        rewrite (gate_monotone c1 c2); [lia | congruence | exact Hc | exact E1].
      - destruct (gate c1), (gate c2); lia. }
    specialize (IH (tick_closure host c1) (tick_closure host c2) (S k) _ _
                   N1 N2 Hc P1 P2 He').
    destruct (run host n (tick_closure host c1)) as [os1 c1'].
    destruct (run host n (tick_closure host c2)) as [os2 c2'].
    cbn [fst map] in *. rewrite !emitted_cons, G1, G2. lia.
Qed.

(** ** Registering the melody *)

Lemma startGenerativeMelody_session (p : MusicalParams) (rng : Rng) (w : World) :
  ctx (eng w) <> None ->
  let w' := startGenerativeMelody p rng w in
  melodyInterval (eng w') = Some (next_timer w)
  /\ find_interval (next_timer w) (intervals w')
     = Some (mkClosure p (scaleNotes p) rng)
  /\ ctx (eng w') = ctx (eng w)
  /\ isPlaying (eng w') = isPlaying (eng w)
  /\ masterGain (eng w') = masterGain (eng w)
  /\ currentOscillators (eng w') = currentOscillators (eng w)
  /\ trace w' = trace w ++ [SetInterval (next_timer w) (noteDuration p * 1000)].
Proof.
  intros Hc. unfold startGenerativeMelody.
  destruct (ctx (eng w)) eqn:E; [|congruence].
  cbn. rewrite Pos.eqb_refl. rewrite E. repeat split; reflexivity.
Qed.

Lemma startGenerativeMelody_live (p : MusicalParams) (rng : Rng) (w : World) :
  live w -> live (startGenerativeMelody p rng w).
Proof.
  intros (Hp & Hc & Hm).
  destruct (startGenerativeMelody_session p rng w Hc)
    as (_ & _ & E1 & E2 & E3 & _).
  unfold live. rewrite E1, E2, E3. auto.
Qed.

Lemma session_ticks_started (p : MusicalParams) (rng : Rng) (clock : list Q)
  (w : World) :
  live w ->
  fst (session_ticks host clock (startGenerativeMelody p rng w))
  = map Some (fst (run host (List.length clock)
                       (mkClosure p (scaleNotes p) rng))).
Proof.
  intros Hl. pose proof (startGenerativeMelody_live p rng Hl) as Hl'.
  destruct Hl as (_ & Hc & _).
  destruct (startGenerativeMelody_session p rng w Hc) as (Em & Ef & _).
  unfold session_ticks. rewrite Em.
  now destruct (ticks_live (next_timer w) clock Hl' Ef) as (E & _).
Qed.

(** C4.  For one and the same draw sequence (any generator whose draws lie
    in [0, 1)) and one and the same number of firings, a melody registered
    with the larger complexity schedules at least as many notes as one
    registered with the smaller complexity. *)
Theorem complexity_monotone (p1 p2 : MusicalParams) (rng : Rng)
  (clock : list Q) (w1 w2 : World) :
  live w1 -> live w2 ->
  unit_range rng ->
  complexity p1 <= complexity p2 ->
  (emitted (fst (session_ticks host clock (startGenerativeMelody p1 rng w1)))
   <= emitted (fst (session_ticks host clock
                      (startGenerativeMelody p2 rng w2))))%nat.
Proof.
  intros L1 L2 Hu Hc.
  rewrite !session_ticks_started by assumption.
  apply (@run_monotone rng (List.length clock) Hu
           (mkClosure p1 (scaleNotes p1) rng)
           (mkClosure p2 (scaleNotes p2) rng) 0%nat 0%nat 0%nat);
    cbn [cl_scaleNotes cl_params cl_rng];
    auto using scaleNotes_nonempty.
Qed.

(** ** The injected draw sequence *)

Lemma advance_stream (f : nat -> Q) (k : nat) :
  forall i, advance k (mkRng i (fun j => (f j, S j)))
            = mkRng (i + k)%nat (fun j => (f j, S j)).
Proof.
  induction k as [|k IH]; intros i.
  - simpl. now rewrite Nat.add_0_r.
  - cbn [advance call snd rng_next rng_cur]. rewrite IH. f_equal. lia.
Qed.

Lemma draw_stream (f : nat -> Q) (k : nat) : draw k (from_stream f) = f k.
Proof.
  unfold draw, from_stream. now rewrite advance_stream.
Qed.

Lemma injected_draw (k j : nat) :
  draw j (advance (4 * k) Sample.injected)
  = nth (j mod 4) [0.9; 0.2; 0.95; 0.3] 0.
Proof.
  rewrite draw_advance. unfold Sample.injected. rewrite draw_stream.
  replace (4 * k + j)%nat with (j + k * 4)%nat by lia.
  now rewrite Nat.Div0.mod_add.
Qed.

Lemma injected_draw_3 (k : nat) :
  draw 0 (advance (4 * k + 3) Sample.injected) = 0.3.
Proof.
  rewrite advance_add, draw_advance. apply (injected_draw k 3).
Qed.

Lemma run_injected (n : nat) :
  forall (c : MelodyClosure) (k : nat),
    complexity (cl_params c) == 0.5 ->
    List.length (cl_scaleNotes c) = 8%nat ->
    (cl_rng c = advance (4 * k) Sample.injected ->
     map is_emit (map Some (fst (run host n c))) = alternating n true)
    /\ (cl_rng c = advance (4 * k + 3) Sample.injected ->
        map is_emit (map Some (fst (run host n c))) = alternating n false).
Proof.
  induction n as [|n IH]; intros c k Hc Hlen; [split; reflexivity|].
  assert (Hthr : 1 - complexity (cl_params c) == 0.5) by (rewrite Hc; reflexivity).
  split; intros Hr.
  - assert (G : gate c = true).
    { unfold gate. rewrite Hr, (injected_draw k 0), (gtb_comp _ Hthr).
      reflexivity. }
    assert (I : tick_noteIdx c = 1%Z).
    { unfold tick_noteIdx. rewrite Hlen, Hr, (injected_draw k 1).
      reflexivity. }
    assert (E : exists freq,
               tick_outcome host c = Emitted 1 (tick_octave c) freq).
    { unfold tick_outcome. rewrite G, I.
      destruct (cl_scaleNotes c) as [|a [|b l]]; try discriminate.
      change (index (a :: b :: l) 1) with (Some b). eauto. }
    destruct E as [freq E].
    cbn [run].
    destruct (IH (tick_closure host c) k Hc Hlen) as [_ IH2].
    destruct (run host n (tick_closure host c)) as [os c'].
    cbn [fst map alternating negb]. rewrite E at 1. cbn [is_emit].
    f_equal. apply IH2.
    unfold tick_closure. cbn [cl_rng]. rewrite E. cbn [draws_of].
    now rewrite Hr, <- advance_add.
  - assert (G : gate c = false).
    { unfold gate. rewrite Hr, injected_draw_3, (gtb_comp _ Hthr).
      reflexivity. }
    assert (E : tick_outcome host c = Skipped)
      by (unfold tick_outcome; now rewrite G).
    cbn [run].
    destruct (IH (tick_closure host c) (S k) Hc Hlen) as [IH1 _].
    destruct (run host n (tick_closure host c)) as [os c'].
    cbn [fst map alternating negb]. rewrite E at 1. cbn [is_emit].
    f_equal. apply IH1.
    unfold tick_closure. cbn [cl_rng]. rewrite E. cbn [draws_of].
    rewrite Hr, <- advance_add. f_equal. lia.
Qed.

Lemma run_after_four (f : nat -> Q) (c : MelodyClosure) (n : nat) :
  complexity (cl_params c) == 0.5 ->
  List.length (cl_scaleNotes c) = 8%nat ->
  cl_rng c = from_stream f ->
  f 0%nat = 0.9 -> f 1%nat = 0.2 -> f 3%nat = 0.3 ->
  map is_emit (map Some (fst (run host (2 + n) c)))
  = true :: false
    :: map is_emit
         (map Some
            (fst (run host n
                    (mkClosure (cl_params c) (cl_scaleNotes c)
                               (advance 4 (from_stream f)))))).
Proof.
  intros Hc Hlen Hr F0 F1 F3.
  assert (Hthr : 1 - complexity (cl_params c) == 0.5) by (rewrite Hc; reflexivity).
  assert (G : gate c = true).
  { unfold gate. rewrite Hr, draw_stream, F0, (gtb_comp _ Hthr).
    reflexivity. }
  assert (I : tick_noteIdx c = 1%Z).
  { unfold tick_noteIdx. rewrite Hlen, Hr, draw_stream, F1. reflexivity. }
  assert (E : exists freq,
             tick_outcome host c = Emitted 1 (tick_octave c) freq).
  { unfold tick_outcome. rewrite G, I.
    destruct (cl_scaleNotes c) as [|a [|b l]]; try discriminate.
    change (index (a :: b :: l) 1) with (Some b). eauto. }
  destruct E as [freq E].
  assert (R : cl_rng (tick_closure host c) = advance 3 (from_stream f)).
  { unfold tick_closure. cbn [cl_rng]. rewrite E. cbn [draws_of].
    now rewrite Hr. }
  assert (G' : gate (tick_closure host c) = false).
  { unfold gate. rewrite R, draw_advance, draw_stream. cbn [Nat.add].
    rewrite F3. cbn [tick_closure cl_params]. rewrite (gtb_comp _ Hthr).
    reflexivity. }
  assert (E' : tick_outcome host (tick_closure host c) = Skipped)
    by (unfold tick_outcome; now rewrite G').
  assert (C2 : tick_closure host (tick_closure host c)
               = mkClosure (cl_params c) (cl_scaleNotes c)
                           (advance 4 (from_stream f))).
  { unfold tick_closure at 1. rewrite E'. cbn [draws_of]. rewrite R.
    cbn [tick_closure cl_params cl_scaleNotes].
    now rewrite <- advance_add. }
  change (2 + n)%nat with (S (S n)). cbn [run]. rewrite C2.
  destruct (run host n
              (mkClosure (cl_params c) (cl_scaleNotes c)
                         (advance 4 (from_stream f)))) as [os c'].
  cbn [fst map]. rewrite E, E'. reflexivity.
Qed.

Lemma run_third_from_fifth (f : nat -> Q) (c : MelodyClosure) :
  complexity (cl_params c) == 0.5 ->
  List.length (cl_scaleNotes c) = 8%nat ->
  cl_rng c = from_stream f ->
  f 0%nat = 0.9 -> f 1%nat = 0.2 -> f 3%nat = 0.3 ->
  0 <= f 5%nat -> f 5%nat < 1 ->
  map is_emit (map Some (fst (run host 3 c)))
  = [true; false; gtb (f 4%nat) 0.5].
Proof.
  intros Hc Hlen Hr F0 F1 F3 L5 U5.
  change 3%nat with (2 + 1)%nat.
  rewrite (@run_after_four f c 1 Hc Hlen Hr F0 F1 F3).
  do 2 f_equal.
  set (c4 := mkClosure (cl_params c) (cl_scaleNotes c)
                       (advance 4 (from_stream f))).
  assert (Hthr : 1 - complexity (cl_params c) == 0.5) by (rewrite Hc; reflexivity).
  assert (G : gate c4 = gtb (f 4%nat) 0.5).
  { unfold gate, c4. cbn [cl_rng cl_params].
    rewrite draw_advance, draw_stream. cbn [Nat.add].
    apply gtb_comp, Hthr. }
  assert (Hne : cl_scaleNotes c <> [])
    by (destruct (cl_scaleNotes c); [discriminate | congruence]).
  assert (N : exists offset,
             index (cl_scaleNotes c4) (tick_noteIdx c4) = Some offset).
  { unfold tick_noteIdx, c4. cbn [cl_rng cl_scaleNotes].
    rewrite draw_advance, draw_stream. cbn [Nat.add].
    now apply index_in_range. }
  destruct N as [offset N].
  assert (T : is_emit (Some (tick_outcome host c4)) = gtb (f 4%nat) 0.5).
  { rewrite <- G. unfold tick_outcome. rewrite N. now destruct (gate c4). }
  cbn [run fst map]. now rewrite T.
Qed.

(** C3.  At tempo 80 the tick period is 0.75 s (the interval is registered
    with 750 ms) and at complexity 0.5 the emission test is [draw > 0.5].
    A firing that emits reads three draws, so the four draws 0.9, 0.2,
    0.95, 0.3 settle two firings, not four: on any draw sequence that
    begins with them the first two firings of a live engine are emit,
    skip, and the firings after them are those of the sequence from its
    fifth draw on; the third emits exactly when the fifth draw exceeds
    0.5.  When the four draws repeat with period four the firings
    alternate emit, skip, emit, skip, ... without end. *)
Theorem concrete_scenario (p : MusicalParams) (w : World) (clock : list Q) :
  live w ->
  tempo p == 80 ->
  complexity p == 0.5 ->
  noteDuration p == 0.75
  /\ In (SetInterval (next_timer w) (noteDuration p * 1000))
        (trace (startGenerativeMelody p Sample.injected w))
  /\ noteDuration p * 1000 == 750
  /\ (forall d, gtb d (1 - complexity p) = gtb d 0.5)
  /\ map is_emit
         (fst (session_ticks host clock
                 (startGenerativeMelody p Sample.injected w)))
     = alternating (List.length clock) true
  /\ (forall (f : nat -> Q) (t1 t2 : Q) (clock' : list Q),
        f 0%nat = 0.9 -> f 1%nat = 0.2 -> f 2%nat = 0.95 -> f 3%nat = 0.3 ->
        map is_emit
            (fst (session_ticks host (t1 :: t2 :: clock')
                    (startGenerativeMelody p (from_stream f) w)))
        = true :: false
          :: map is_emit
               (map Some
                  (fst (run host (List.length clock')
                          (mkClosure p (scaleNotes p)
                                     (advance 4 (from_stream f)))))))
  /\ (forall (f : nat -> Q) (t1 t2 t3 : Q),
        f 0%nat = 0.9 -> f 1%nat = 0.2 -> f 2%nat = 0.95 -> f 3%nat = 0.3 ->
        0 <= f 5%nat -> f 5%nat < 1 ->
        map is_emit
            (fst (session_ticks host [t1; t2; t3]
                    (startGenerativeMelody p (from_stream f) w)))
        = [true; false; gtb (f 4%nat) 0.5]).
Proof.
  intros Hl Ht Hc.
  assert (Hd : noteDuration p == 0.75).
  { unfold noteDuration, bpm, truthy.
    destruct (Qeq_bool (tempo p) 0) eqn:E.
    - apply Qeq_bool_eq in E. rewrite E in Ht. discriminate.
    - cbn [negb]. rewrite Ht. reflexivity. }
  split; [exact Hd|]. split; [|split; [|split; [|split; [|split]]]].
  - destruct Hl as (_ & Hx & _).
    destruct (startGenerativeMelody_session p Sample.injected w Hx)
      as (_ & _ & _ & _ & _ & _ & E).
    rewrite E. apply in_or_app. right. now left.
  - rewrite Hd. reflexivity.
  - intros d. apply gtb_comp. rewrite Hc. reflexivity.
  - rewrite session_ticks_started by exact Hl.
    apply (run_injected (List.length clock)
             (mkClosure p (scaleNotes p) Sample.injected) 0);
      cbn [cl_params cl_scaleNotes cl_rng];
      auto using scaleNotes_length.
  - intros f t1 t2 clock' F0 F1 _ F3.
    rewrite session_ticks_started by exact Hl.
    apply (@run_after_four f (mkClosure p (scaleNotes p) (from_stream f))
             (List.length clock'));
      cbn [cl_params cl_scaleNotes cl_rng];
      auto using scaleNotes_length.
  - intros f t1 t2 t3 F0 F1 _ F3 L5 U5.
    rewrite session_ticks_started by exact Hl.
    apply (@run_third_from_fifth f
             (mkClosure p (scaleNotes p) (from_stream f)));
      cbn [cl_params cl_scaleNotes cl_rng];
      auto using scaleNotes_length.
Qed.

(** ** Teardown *)

Lemma log_log (a b : list Event) (w : World) :
  log b (log a w) = log (a ++ b) w.
Proof.
  unfold log. simpl. now rewrite app_assoc.
Qed.

Lemma log_nil (w : World) : log [] w = w.
Proof.
  unfold log. rewrite app_nil_r. now destruct w.
Qed.

Lemma voice_teardown_step (o : NodeId) (w : World) :
  try_catch (seq (osc_stop host o) (disconnect o)) w
  = (Normal,
     log (if stop_throws host (trace w) o
          then [StopNode o None]
          else [StopNode o None; Disconnect o]) w).
Proof.
  unfold try_catch, seq, osc_stop, disconnect, act.
  destruct (stop_throws host (trace w) o); [reflexivity|].
  now rewrite log_log.
Qed.

Lemma forEach_teardown (os : list NodeId) :
  forall w,
    forEach (fun o => try_catch (seq (osc_stop host o) (disconnect o))) os w
    = (Normal, log (voices_teardown host (trace w) os) w).
Proof.
  induction os as [|o os IH]; intros w.
  - simpl. unfold act. now rewrite log_nil.
  - cbn [forEach voices_teardown]. unfold seq at 1.
    rewrite voice_teardown_step, IH, log_log. reflexivity.
Qed.

Lemma seq_act (f : World -> World) (k : M) (w : World) :
  seq (act f) k w = k (f w).
Proof. reflexivity. Qed.

Lemma stop_timer (w : World) :
  match melodyInterval (eng w) with
  | Some id =>
      seq (act (log [ClearInterval id]))
          (seq (act (with_intervals
                       (filter (fun e => negb (Pos.eqb (fst e) id)))))
               (act (with_eng (set_melodyInterval None)))) w
  | None => (Normal, w)
  end
  = (Normal,
     mkWorld (set_melodyInterval None (eng w)) (next_node w) (next_timer w)
             (match melodyInterval (eng w) with
              | Some id =>
                  filter (fun e => negb (Pos.eqb (fst e) id)) (intervals w)
              | None => intervals w
              end)
             (trace w ++ timer_teardown w)).
Proof.
  unfold timer_teardown. destruct w as [[cx ip mg mi rv dl os] nn nt iv tr].
  destruct mi; cbn; rewrite ?app_nil_r; reflexivity.
Qed.

Lemma stop_master (w : World) :
  match masterGain (eng w) with
  | Some g => seq (disconnect g) (act (with_eng (set_masterGain None))) w
  | None => (Normal, w)
  end
  = (Normal,
     mkWorld (set_masterGain None (eng w)) (next_node w) (next_timer w)
             (intervals w) (trace w ++ master_teardown w)).
Proof.
  unfold master_teardown. destruct w as [[cx ip mg mi rv dl os] nn nt iv tr].
  destruct mg; cbn; rewrite ?app_nil_r; reflexivity.
Qed.

Lemma stop_eq (w : World) : stop host w = (Normal, stopped host w).
Proof.
  unfold stop. rewrite seq_act.
  unfold seq at 1. cbn beta. rewrite stop_timer.
  unfold seq at 1. cbn beta. rewrite forEach_teardown.
  rewrite seq_act. cbn beta. rewrite stop_master.
  unfold stopped, teardown_calls.
  destruct w as [[cx ip mg mi rv dl os] nn nt iv tr].
  cbn [log with_eng set_isPlaying set_melodyInterval set_currentOscillators
       set_masterGain eng ctx isPlaying masterGain melodyInterval reverbNode
       delayNode currentOscillators next_node next_timer intervals trace
       timer_teardown master_teardown].
  now rewrite <- !app_assoc.
Qed.

Lemma stopped_idempotent (w : World) :
  stopped host (stopped host w) = stopped host w.
Proof.
  unfold stopped at 1. unfold teardown_calls, timer_teardown, master_teardown.
  cbn [stopped eng melodyInterval masterGain currentOscillators ctx
       reverbNode delayNode next_node next_timer intervals trace
       voices_teardown app].
  rewrite app_nil_r. reflexivity.
Qed.

Lemma voices_teardown_stops (os : list NodeId) :
  forall tr o, In o os -> In (StopNode o None) (voices_teardown host tr os).
Proof.
  induction os as [|x os IH]; intros tr o; [intros []|].
  intros [->|Hin]; cbn [voices_teardown]; apply in_or_app.
  - left. destruct (stop_throws host tr o); now left.
  - right. now apply IH.
Qed.

Lemma voices_teardown_class (os : list NodeId) :
  forall tr, Forall (fun e => is_teardown e = true)
                    (voices_teardown host tr os).
Proof.
  induction os as [|x os IH]; intros tr; cbn [voices_teardown].
  - constructor.
  - apply Forall_app. split; [|apply IH].
    destruct (stop_throws host tr x); repeat constructor.
Qed.

Lemma teardown_calls_class (w : World) :
  Forall (fun e => is_teardown e = true) (teardown_calls host w).
Proof.
  unfold teardown_calls, timer_teardown, master_teardown.
  repeat (apply Forall_app; split).
  - destruct (melodyInterval (eng w)); repeat constructor.
  - apply voices_teardown_class.
  - destruct (masterGain (eng w)); repeat constructor.
Qed.

(** ** The phases of [play] *)

Ltac engine_cbn :=
  cbv beta iota zeta delta
    [fresh log with_eng with_intervals push_oscillator set_ctx set_isPlaying
     set_masterGain set_melodyInterval set_reverbNode set_delayNode
     set_currentOscillators eng next_node next_timer intervals trace ctx
     isPlaying masterGain melodyInterval reverbNode delayNode
     currentOscillators state currentTime sampleRate on_resume fst snd
     fold_left].

Ltac flatten_trace :=
  repeat rewrite <- app_assoc; cbn [app].

Lemma events_since_app (w w' : World) (evs : list Event) :
  trace w' = trace w ++ evs -> events_since w w' = evs.
Proof.
  unfold events_since. intros ->.
  rewrite skipn_app, skipn_all, Nat.sub_diag. reflexivity.
Qed.

Lemma resume_spec (w : World) (c : AudioContext) :
  ctx (eng w) = Some c ->
  (state c = suspended -> on_resume c = resolves) ->
  exists w1 c1,
    resume w = (Normal, w1)
    /\ ctx (eng w1) = Some c1
    /\ currentTime c1 = currentTime c
    /\ set_ctx (Some c) (eng w1) = eng w
    /\ next_node w1 = next_node w
    /\ next_timer w1 = next_timer w
    /\ intervals w1 = intervals w
    /\ trace w1
       = trace w ++ match state c with suspended => [CtxResume] | _ => [] end.
Proof.
  intros Hc Hr. unfold resume. rewrite Hc.
  destruct w as [[cx ip mg mi rv dl os] nn nt iv tr]. cbn in Hc. subst cx.
  destruct c as [st t sr outcome]. cbn in Hr.
  destruct st.
  - rewrite Hr by reflexivity. engine_cbn.
    eexists. eexists. split; [reflexivity|]. engine_cbn.
    repeat split; reflexivity.
  - exists (mkWorld (mkEngine (Some (mkCtx running t sr outcome)) ip mg mi rv
                              dl os) nn nt iv tr).
    eexists. split; [reflexivity|]. engine_cbn. rewrite app_nil_r.
    repeat split; reflexivity.
  - exists (mkWorld (mkEngine (Some (mkCtx closed t sr outcome)) ip mg mi rv
                              dl os) nn nt iv tr).
    eexists. split; [reflexivity|]. engine_cbn. rewrite app_nil_r.
    repeat split; reflexivity.
Qed.

Lemma createMasterGain_spec (w : World) (c : AudioContext) :
  ctx (eng w) = Some c ->
  createMasterGain w
  = (Normal,
     mkWorld (set_masterGain (Some (next_node w)) (eng w))
             (S (next_node w)) (next_timer w) (intervals w)
             (trace w
              ++ [CreateGain (next_node w);
                  SetValueAtTime (gain (next_node w)) 0 (currentTime c);
                  LinearRampToValueAtTime (gain (next_node w)) 0.5
                                          (currentTime c + 1.0);
                  Connect (next_node w) destination])).
Proof.
  intros Hc. unfold createMasterGain. rewrite Hc. engine_cbn.
  flatten_trace. reflexivity.
Qed.

Lemma setupEffects_spec (w : World) (c : AudioContext) (mg : NodeId) :
  ctx (eng w) = Some c ->
  masterGain (eng w) = Some mg ->
  exists evs,
    trace (setupEffects w) = trace w ++ evs
    /\ Forall (fun e => is_build e = true) evs
    /\ timbres evs = [] /\ frequencies evs = []
    /\ set_reverbNode (reverbNode (eng w))
         (set_delayNode (delayNode (eng w)) (eng (setupEffects w)))
       = eng w
    /\ next_timer (setupEffects w) = next_timer w
    /\ intervals (setupEffects w) = intervals w.
Proof.
  intros Hc Hm. unfold setupEffects. rewrite Hc, Hm.
  destruct w as [[cx ip g mi rv dl os] nn nt iv tr].
  cbn in Hc, Hm. subst cx g.
  unfold setupReverb, setupDelay.
  destruct rv as [r|], dl as [d|]; engine_cbn; flatten_trace;
    (eexists; split; [reflexivity|]);
    (split; [repeat constructor|]);
    repeat split; reflexivity.
Qed.

Lemma padTone_spec (t root mult : Q) (mg : NodeId) (rng : Rng) (w : World) :
  padTone t root mg (rng, w) mult
  = (advance 2 rng,
     mkWorld
       (set_currentOscillators
          (currentOscillators (eng w) ++ [next_node w; (2 + next_node w)%nat])
          (eng w))
       (4 + next_node w)%nat (next_timer w) (intervals w)
       (trace w
        ++ pad_tone_calls (next_node w) t root mult mg
                          (draw 0 rng) (draw 1 rng))).
Proof.
  unfold padTone.
  rewrite (call_draw rng). engine_cbn.
  rewrite (call_draw (advance 1 rng)). engine_cbn.
  flatten_trace. reflexivity.
Qed.

Lemma startPad_spec (p : MusicalParams) (rng : Rng) (w : World)
  (c : AudioContext) (mg : NodeId) :
  ctx (eng w) = Some c ->
  masterGain (eng w) = Some mg ->
  let k := next_node w in
  let t := currentTime c in
  let root := baseFrequency p / 2 in
  startPad p rng w
  = (advance 6 rng,
     mkWorld
       (set_currentOscillators
          (currentOscillators (eng w)
           ++ [k; 2 + k; 4 + k; 6 + k; 8 + k; 10 + k]%nat)
          (eng w))
       (12 + k)%nat (next_timer w) (intervals w)
       (trace w
        ++ pad_tone_calls k t root 1 mg (draw 0 rng) (draw 1 rng)
        ++ pad_tone_calls (4 + k)%nat t root 1.5 mg (draw 2 rng) (draw 3 rng)
        ++ pad_tone_calls (8 + k)%nat t root 1.25 mg (draw 4 rng) (draw 5 rng))).
Proof.
  intros Hc Hm k t root. unfold startPad. rewrite Hc, Hm.
  unfold chordOffsets. cbn [fold_left].
  rewrite !padTone_spec. engine_cbn.
  repeat rewrite <- app_assoc. reflexivity.
Qed.

Lemma pad_rate_range (d : Q) :
  0 <= d -> d < 1 -> 0.1 <= pad_rate d /\ pad_rate d < 0.3.
Proof.
  unfold pad_rate. intros H0 H1. split; lra.
Qed.

(** C9.  On an engine with a context and a master gain, [startPad] on the
    generator seeded from any identifier reads exactly the first six draws,
    per tone first the waveform and then the modulator rate; the tones get
    [baseFrequency / 2] times 1, 1.5 and 1.25 and gain 0.08; every modulator
    rate lies in [0.1, 0.3); and the three tones and three modulators are
    appended to [currentOscillators] (and started). *)
Theorem pad_voice (p : MusicalParams) (seed : JSString) (w : World)
  (c : AudioContext) (mg : NodeId) :
  ctx (eng w) = Some c ->
  masterGain (eng w) = Some mg ->
  let rng := getRandomFromSeed host seed in
  let r := startPad p rng w in
  let evs := events_since w (snd r) in
  let k := next_node w in
  let root := baseFrequency p / 2 in
  fst r = advance 6 rng
  /\ timbres evs
     = [ (k, pad_timbre (draw 0 rng));
         ((4 + k)%nat, pad_timbre (draw 2 rng));
         ((8 + k)%nat, pad_timbre (draw 4 rng)) ]
  /\ frequencies evs
     = [ (k, root * 1);
         ((2 + k)%nat, pad_rate (draw 1 rng));
         ((4 + k)%nat, root * 1.5);
         ((6 + k)%nat, pad_rate (draw 3 rng));
         ((8 + k)%nat, root * 1.25);
         ((10 + k)%nat, pad_rate (draw 5 rng)) ]
  /\ gains evs
     = [ ((1 + k)%nat, 0.08); ((3 + k)%nat, 0.02);
         ((5 + k)%nat, 0.08); ((7 + k)%nat, 0.02);
         ((9 + k)%nat, 0.08); ((11 + k)%nat, 0.02) ]
  /\ Forall (fun i => 0.1 <= pad_rate (draw i rng)
                      /\ pad_rate (draw i rng) < 0.3) [1; 3; 5]%nat
  /\ started evs = [2 + k; k; 6 + k; 4 + k; 10 + k; 8 + k]%nat
  /\ currentOscillators (eng (snd r))
     = currentOscillators (eng w)
       ++ [k; 2 + k; 4 + k; 6 + k; 8 + k; 10 + k]%nat.
Proof.
  intros Hc Hm rng r evs k root.
  assert (Er : r = startPad p rng w) by reflexivity.
  rewrite (startPad_spec p rng w Hc Hm) in Er.
  assert (Ee : evs
               = pad_tone_calls k (currentTime c) root 1 mg
                                (draw 0 rng) (draw 1 rng)
                 ++ pad_tone_calls (4 + k)%nat (currentTime c) root 1.5 mg
                                   (draw 2 rng) (draw 3 rng)
                 ++ pad_tone_calls (8 + k)%nat (currentTime c) root 1.25 mg
                                   (draw 4 rng) (draw 5 rng)).
  { subst evs. apply events_since_app. now rewrite Er. }
  rewrite Ee, Er. cbn [fst snd eng currentOscillators set_currentOscillators].
  repeat split; try reflexivity.
  repeat constructor;
    apply pad_rate_range; apply (seeded_unit_range seed).
Qed.

Lemma effects_keep_fields (e e' : Engine) (a b : option NodeId) :
  set_reverbNode a (set_delayNode b e') = e ->
  ctx e' = ctx e /\ isPlaying e' = isPlaying e
  /\ masterGain e' = masterGain e /\ melodyInterval e' = melodyInterval e
  /\ currentOscillators e' = currentOscillators e.
Proof.
  intros <-. destruct e'. cbn. auto.
Qed.

Lemma timbres_app (a b : list Event) : timbres (a ++ b) = timbres a ++ timbres b.
Proof. apply flat_map_app. Qed.

Lemma frequencies_app (a b : list Event) :
  frequencies (a ++ b) = frequencies a ++ frequencies b.
Proof. apply flat_map_app. Qed.

Lemma play_spec (p : MusicalParams) (id : JSString) (w : World)
  (c : AudioContext) :
  ctx (eng w) = Some c ->
  (state c = suspended -> on_resume c = resolves) ->
  let rng := getRandomFromSeed host id in
  let root := baseFrequency p / 2 in
  exists w' c1 build,
    play host p id w = (Normal, w')
    /\ events_since w w'
       = match state c with suspended => [CtxResume] | _ => [] end
         ++ teardown_calls host (snd (resume w)) ++ build
    /\ Forall (fun e => is_build e = true) build
    /\ pad_choices build
       = ([pad_timbre (draw 0 rng); pad_timbre (draw 2 rng);
           pad_timbre (draw 4 rng)],
          [root * 1; pad_rate (draw 1 rng); root * 1.5;
           pad_rate (draw 3 rng); root * 1.25; pad_rate (draw 5 rng)])
    /\ ctx (eng w') = Some c1
    /\ isPlaying (eng w') = true
    /\ masterGain (eng w') = Some (next_node w)
    /\ List.length (currentOscillators (eng w')) = 6%nat
    /\ session_closure w' = Some (mkClosure p (scaleNotes p) (advance 6 rng))
    /\ hd_error build = Some (CreateGain (next_node w)).
Proof.
  intros Hc Hr rng root.
  destruct (resume_spec w Hc Hr)
    as (w1 & c1 & E1 & Hc1 & _ & He1 & Hnn1 & _ & _ & Htr1).
  assert (Hw1 : snd (resume w) = w1) by now rewrite E1.
  rewrite Hw1.
  (* teardown *)
  set (w2 := stopped host w1).
  assert (Hc2 : ctx (eng w2) = Some c1) by exact Hc1.
  (* master gain *)
  pose proof (createMasterGain_spec w2 Hc2) as E3.
  set (g := next_node w2) in E3.
  set (master := [CreateGain g; SetValueAtTime (gain g) 0 (currentTime c1);
                  LinearRampToValueAtTime (gain g) 0.5 (currentTime c1 + 1.0);
                  Connect g destination]) in E3.
  set (w3 := mkWorld (set_masterGain (Some g) (eng w2)) (S g) (next_timer w2)
                     (intervals w2) (trace w2 ++ master)) in E3.
  assert (Hg : g = next_node w) by (subst g w2; exact Hnn1).
  (* effects *)
  destruct (@setupEffects_spec w3 c1 g Hc2 eq_refl)
    as (fx & Htr4 & Hb4 & Htim4 & Hfr4 & He4 & _ & _).
  apply effects_keep_fields in He4.
  destruct He4 as (Hc4 & Hp4 & Hm4 & _ & Ho4).
  set (w4 := setupEffects w3) in *.
  rewrite (Hc2 : ctx (eng w3) = Some c1) in Hc4.
  change (masterGain (eng w3)) with (Some g) in Hm4.
  change (currentOscillators (eng w3)) with (@nil NodeId) in Ho4.
  (* pad *)
  pose proof (startPad_spec p rng w4 Hc4 Hm4) as E5. cbv zeta in E5.
  set (k := next_node w4) in E5.
  set (pad := pad_tone_calls k (currentTime c1) (baseFrequency p / 2) 1 g
                             (draw 0 rng) (draw 1 rng)
              ++ pad_tone_calls (4 + k)%nat (currentTime c1)
                                (baseFrequency p / 2) 1.5 g
                                (draw 2 rng) (draw 3 rng)
              ++ pad_tone_calls (8 + k)%nat (currentTime c1)
                                (baseFrequency p / 2) 1.25 g
                                (draw 4 rng) (draw 5 rng)) in E5.
  rewrite Ho4 in E5. cbn [app] in E5.
  set (w5 := mkWorld
               (set_currentOscillators
                  [k; 2 + k; 4 + k; 6 + k; 8 + k; 10 + k]%nat (eng w4))
               (12 + k)%nat (next_timer w4) (intervals w4) (trace w4 ++ pad))
    in E5.
  (* melody *)
  assert (Hc5 : ctx (eng w5) <> None) by (cbn; rewrite Hc4; discriminate).
  destruct (startGenerativeMelody_session p (advance 6 rng) w5 Hc5)
    as (Em6 & Ef6 & Ec6 & _ & Emg6 & Eo6 & Etr6).
  set (w6 := startGenerativeMelody p (advance 6 rng) w5) in *.
  exists (with_eng (set_isPlaying true) w6), c1,
         (master ++ fx ++ pad
          ++ [SetInterval (next_timer w5) (noteDuration p * 1000)]).
  repeat match goal with |- _ /\ _ => split end.
  - unfold play. rewrite Hc.
    unfold seq at 1. rewrite E1.
    unfold seq at 1. rewrite stop_eq. fold w2.
    unfold seq at 1. rewrite E3.
    unfold seq at 1. unfold act at 1. fold w4.
    fold rng. rewrite E5. reflexivity.
  - apply events_since_app.
    cbn [with_eng trace]. rewrite Etr6. cbn [w5 trace]. rewrite Htr4.
    cbn [w3 trace w2 stopped]. rewrite Htr1.
    now rewrite <- !app_assoc.
  - repeat (apply Forall_app; split); try exact Hb4;
      repeat constructor.
  - unfold pad_choices.
    rewrite !timbres_app, !frequencies_app, Htim4, Hfr4.
    reflexivity.
  - cbn [with_eng eng set_isPlaying ctx]. rewrite Ec6. cbn. exact Hc4.
  - reflexivity.
  - cbn [with_eng eng set_isPlaying masterGain]. rewrite Emg6. cbn.
    rewrite Hm4. now rewrite Hg.
  - cbn [with_eng eng set_isPlaying currentOscillators]. rewrite Eo6.
    reflexivity.
  - unfold session_closure.
    cbn [with_eng eng set_isPlaying melodyInterval intervals].
    rewrite Em6. exact Ef6.
  - cbn [master app hd_error]. now rewrite <- Hg.
Qed.

Lemma teardown_silent (evs : list Event) :
  Forall (fun e => is_teardown e = true) evs ->
  timbres evs = [] /\ frequencies evs = [].
Proof.
  induction 1 as [|e evs He _ [IH1 IH2]]; [now split|].
  unfold timbres, frequencies in *. cbn [flat_map]. rewrite IH1, IH2.
  destruct e; try discriminate; now split.
Qed.

Lemma pad_choices_prefix (c : AudioContext) (t b : list Event) :
  Forall (fun e => is_teardown e = true) t ->
  pad_choices (match state c with suspended => [CtxResume] | _ => [] end
               ++ t ++ b)
  = pad_choices b.
Proof.
  intros Ht. destruct (teardown_silent Ht) as [A B].
  unfold pad_choices.
  rewrite !timbres_app, !frequencies_app, A, B.
  now destruct (state c).
Qed.

Lemma session_ticks_live (clock : list Q) (c : MelodyClosure) (w : World) :
  live w -> session_closure w = Some c ->
  fst (session_ticks host clock w)
  = map Some (fst (run host (List.length clock) c))
  /\ session_closure (snd (session_ticks host clock w))
     = Some (snd (run host (List.length clock) c)).
Proof.
  intros Hl Hs. unfold session_closure, session_ticks in *.
  destruct (melodyInterval (eng w)) as [id|] eqn:Em; [|discriminate].
  destruct (ticks_live id clock Hl Hs) as (E1 & _ & E3 & E4).
  split; [exact E1|]. now rewrite E4, Em.
Qed.

(** ** The claims about [play] and [stop] *)

(** C1.  Two sessions started by [play] with the same parameters and the
    same identifier, on any two engines that have a context whose resume
    succeeds: both complete; the pad's waveform and frequency choices are
    the same; both melodies start from the same generator state (the seeded
    generator after six draws); and over equally many firings, at whatever
    clock readings, the outcomes (skip, or note index, octave and
    frequency) and the generator states reached are the same. *)
Theorem play_deterministic (p : MusicalParams) (id : JSString)
  (w1 w2 : World) (c1 c2 : AudioContext) (clock1 clock2 : list Q) :
  ctx (eng w1) = Some c1 ->
  ctx (eng w2) = Some c2 ->
  (state c1 = suspended -> on_resume c1 = resolves) ->
  (state c2 = suspended -> on_resume c2 = resolves) ->
  List.length clock1 = List.length clock2 ->
  let s1 := snd (play host p id w1) in
  let s2 := snd (play host p id w2) in
  fst (play host p id w1) = Normal
  /\ fst (play host p id w2) = Normal
  /\ pad_choices (events_since w1 s1) = pad_choices (events_since w2 s2)
  /\ option_map cl_rng (session_closure s1)
     = Some (advance 6 (getRandomFromSeed host id))
  /\ option_map cl_rng (session_closure s2)
     = Some (advance 6 (getRandomFromSeed host id))
  /\ fst (session_ticks host clock1 s1) = fst (session_ticks host clock2 s2)
  /\ option_map cl_rng (session_closure (snd (session_ticks host clock1 s1)))
     = option_map cl_rng
         (session_closure (snd (session_ticks host clock2 s2))).
Proof.
  intros H1 H2 R1 R2 Hlen s1 s2.
  destruct (play_spec p id w1 H1 R1)
    as (w1' & d1 & b1 & E1 & Ev1 & _ & P1 & C1 & I1 & M1 & _ & S1 & _).
  destruct (play_spec p id w2 H2 R2)
    as (w2' & d2 & b2 & E2 & Ev2 & _ & P2 & C2 & I2 & M2 & _ & S2 & _).
  subst s1 s2. rewrite E1, E2. cbn [fst snd].
  assert (L1 : live w1') by (unfold live; rewrite I1, C1, M1;
                             repeat split; discriminate).
  assert (L2 : live w2') by (unfold live; rewrite I2, C2, M2;
                             repeat split; discriminate).
  destruct (session_ticks_live clock1 L1 S1) as [T1 T1'].
  destruct (session_ticks_live clock2 L2 S2) as [T2 T2'].
  repeat split.
  - rewrite Ev1, Ev2, !pad_choices_prefix by apply teardown_calls_class.
    now rewrite P1, P2.
  - now rewrite S1.
  - now rewrite S2.
  - now rewrite T1, T2, Hlen.
  - now rewrite T1', T2', Hlen.
Qed.

(** C2, as the code has it.  [play] first awaits the backend
    ([ctx.resume()], called when the context is suspended), then tears the
    existing session down (the calls of [stop]: the interval cleared, every
    tracked voice stopped, the master gain disconnected), and only then
    builds the master gain, the effects bus, the pad and the melody. *)
Theorem play_order (p : MusicalParams) (id : JSString) (w : World)
  (c : AudioContext) :
  ctx (eng w) = Some c ->
  (state c = suspended -> on_resume c = resolves) ->
  exists teardown build,
    fst (play host p id w) = Normal
    /\ events_since w (snd (play host p id w))
       = match state c with suspended => [CtxResume] | _ => [] end
         ++ teardown ++ build
    /\ Forall (fun e => is_teardown e = true) teardown
    /\ Forall (fun o => In (StopNode o None) teardown)
              (currentOscillators (eng w))
    /\ match melodyInterval (eng w) with
       | Some tid => In (ClearInterval tid) teardown
       | None => True
       end
    /\ match masterGain (eng w) with
       | Some g => In (Disconnect g) teardown
       | None => True
       end
    /\ Forall (fun e => is_build e = true) build
    /\ hd_error build = Some (CreateGain (next_node w)).
Proof.
  intros Hc Hr.
  destruct (resume_spec w Hc Hr)
    as (w1 & c1 & E1 & _ & _ & He1 & Hnn1 & _ & _ & Htr1).
  assert (Hf : currentOscillators (eng w1) = currentOscillators (eng w)
               /\ melodyInterval (eng w1) = melodyInterval (eng w)
               /\ masterGain (eng w1) = masterGain (eng w)).
  { rewrite <- He1. now destruct (eng w1). }
  destruct Hf as (Ho & Hi & Hm).
  exists (teardown_calls host w1).
  destruct (play_spec p id w Hc Hr)
    as (w' & d & build & E & Ev & Hb & _ & _ & _ & _ & _ & _ & Hhd).
  rewrite E1 in Ev. cbn [snd] in Ev.
  exists build. rewrite E. cbn [fst snd].
  split; [reflexivity|]. split; [exact Ev|].
  split; [apply teardown_calls_class|].
  split; [|split; [|split; [|split; [exact Hb|]]]].
  - apply Forall_forall. intros o Hin.
    unfold teardown_calls. apply in_or_app. right. apply in_or_app. left.
    apply voices_teardown_stops. now rewrite Ho.
  - rewrite <- Hi. unfold teardown_calls, timer_teardown.
    destruct (melodyInterval (eng w1)); [|exact I].
    apply in_or_app. left. now left.
  - rewrite <- Hm. unfold teardown_calls, master_teardown.
    destruct (masterGain (eng w1)); [|exact I].
    apply in_or_app. right. apply in_or_app. right. now left.
  - exact Hhd.
Qed.

(** C5.  [stop] completes normally on every engine and whatever the
    backend answers to [stop()] on a voice: never started, already stopped,
    or stopped twice.  It calls [stop()] on every tracked voice, disconnects
    the master gain, and leaves no tracked voice, no master gain, no
    interval and the liveness flag cleared; a second [stop] right after
    completes and changes nothing; and a [play] after it completes with a
    live session whenever the engine has a context that can be resumed. *)
Theorem stop_never_raises (w : World) :
  let w' := snd (stop host w) in
  fst (stop host w) = Normal
  /\ isPlaying (eng w') = false
  /\ melodyInterval (eng w') = None
  /\ currentOscillators (eng w') = []
  /\ masterGain (eng w') = None
  /\ Forall (fun o => In (StopNode o None) (events_since w w'))
            (currentOscillators (eng w))
  /\ match masterGain (eng w) with
     | Some g => In (Disconnect g) (events_since w w')
     | None => True
     end
  /\ stop host w' = (Normal, w')
  /\ forall (p : MusicalParams) (id : JSString) (c : AudioContext),
       ctx (eng w) = Some c ->
       (state c = suspended -> on_resume c = resolves) ->
       fst (play host p id w') = Normal
       /\ isPlaying (eng (snd (play host p id w'))) = true
       /\ masterGain (eng (snd (play host p id w'))) <> None
       /\ List.length (currentOscillators (eng (snd (play host p id w'))))
          = 6%nat.
Proof.
  intros w'. subst w'. rewrite stop_eq. cbn [fst snd].
  assert (Ev : events_since w (stopped host w) = teardown_calls host w)
    by now apply events_since_app.
  rewrite Ev.
  repeat match goal with |- _ /\ _ => split end; try reflexivity.
  - apply Forall_forall. intros o Hin.
    unfold teardown_calls. apply in_or_app. right. apply in_or_app. left.
    now apply voices_teardown_stops.
  - unfold teardown_calls, master_teardown.
    destruct (masterGain (eng w)); [|exact I].
    apply in_or_app. right. apply in_or_app. right. now left.
  - intros p id c Hc Hr.
    destruct (@play_spec p id (stopped host w) c Hc Hr)
      as (w2 & c2 & b & E & _ & _ & _ & _ & I2 & M2 & O2 & _).
    rewrite E. cbn [fst snd]. rewrite I2, M2, O2.
    repeat split; discriminate.
Qed.

Lemma bpm_zero (p : MusicalParams) : tempo p == 0 -> bpm p = 80.
Proof.
  intros H. unfold bpm, truthy.
  apply Qeq_bool_iff in H. now rewrite H.
Qed.

Lemma bpm_nonzero (p : MusicalParams) : ~ tempo p == 0 -> bpm p = tempo p.
Proof.
  intros H. unfold bpm, truthy.
  destruct (Qeq_bool (tempo p) 0) eqn:E; [|reflexivity].
  apply Qeq_bool_iff in E. contradiction.
Qed.

Lemma Qinv_neg (x : Q) : x < 0 -> / x < 0.
Proof.
  intros H.
  assert (Hx : ~ x == 0) by lra.
  assert (Hp : 0 < / - x) by (apply Qinv_lt_0_compat; lra).
  setoid_replace (/ x) with (- / - x); [lra|].
  field. exact Hx.
Qed.

(** C6, as the code has it.  A tempo of zero is replaced by the default of
    80 beats per minute, so the tick period is 0.75 s; any other tempo is
    used as supplied, without validation, so a negative tempo gives the
    negative period [60 / tempo]. *)
Theorem tempo_default (p : MusicalParams) :
  (tempo p == 0 -> bpm p == 80 /\ noteDuration p == 0.75)
  /\ (~ tempo p == 0 -> bpm p == tempo p /\ noteDuration p == 60 / tempo p)
  /\ (tempo p < 0 -> noteDuration p == 60 / tempo p /\ noteDuration p < 0).
Proof.
  unfold noteDuration. split; [|split].
  - intros H. rewrite (bpm_zero p H). split; reflexivity.
  - intros H. rewrite (bpm_nonzero p H). split; reflexivity.
  - intros H. rewrite bpm_nonzero by lra. split; [reflexivity|].
    pose proof (Qinv_neg H) as Hi. unfold Qdiv.
    setoid_replace (60 * / tempo p) with (- (60 * - / tempo p)) by ring.
    assert (0 < 60 * - / tempo p)
      by (apply Qmult_lt_0_compat; [reflexivity | lra]).
    lra.
Qed.

(** C7.  The melody resolves its scale table to the minor entry exactly
    when [scale] is the string "minor", and to the pentatonic entry for
    every other string; that table is what the registered interval closes
    over. *)
Theorem scale_fallback (p : MusicalParams) (rng : Rng) (w : World) :
  (scale p = lit "minor" -> scaleNotes p = minor_scale)
  /\ (scale p <> lit "minor" -> scaleNotes p = pentatonic_scale)
  /\ get (lit "pentatonic") scales = Some pentatonic_scale
  /\ get (lit "minor") scales = Some minor_scale
  /\ (ctx (eng w) <> None ->
      option_map cl_scaleNotes
        (session_closure (startGenerativeMelody p rng w))
      = Some (scaleNotes p)).
Proof.
  repeat match goal with |- _ /\ _ => split end; try reflexivity.
  - intros E. destruct (scaleNotes_cases p) as [[_ H]|[H _]];
      [exact H | contradiction].
  - intros E. destruct (scaleNotes_cases p) as [[H _]|[_ H]];
      [contradiction | exact H].
  - intros Hc.
    destruct (startGenerativeMelody_session p rng w Hc) as (Em & Ef & _).
    unfold session_closure. now rewrite Em, Ef.
Qed.

(** C8, as the code has it.  Every entry of the scale table is a strictly
    ascending list of semitone offsets that starts at 0 and reaches at least
    11; pentatonic is the only entry that reaches past one octave (its
    largest offset is 16, inside the second octave), major, minor and mystic
    end exactly on the octave, and dream ends at 11. *)
Theorem scale_table_shape :
  Forall (fun e => ascending (snd e) = true
                   /\ hd_error (snd e) = Some 0%Z
                   /\ (11 <= max_offset (snd e))%Z) scales
  /\ past_octave_names = [lit "pentatonic"]
  /\ map (fun e => max_offset (snd e)) scales = [12; 12; 16; 12; 11]%Z
  /\ (12 < max_offset pentatonic_scale < 24)%Z.
Proof.
  repeat split; try reflexivity.
  repeat constructor; cbn; lia.
Qed.

End Proofs.

(** * Instances on the sample inputs *)

Module Instances.

Import Sample.

Local Open Scope Q_scope.

Lemma first_session_live : live first_session.
Proof.
  unfold live. vm_compute. repeat split; discriminate.
Defined.

(** Two sessions of the same memory, one on the fresh engine and one
    replacing a live session, fired at different clock readings. *)
Lemma play_deterministic_witness :
  pad_choices (events_since initial (snd (play host params memoryId initial)))
  = pad_choices (events_since playing (snd (play host params memoryId playing)))
  /\ fst (session_ticks host [1; 2; 3]
            (snd (play host params memoryId initial)))
     = fst (session_ticks host [7; 8; 9]
              (snd (play host params memoryId playing))).
Proof.
  pose proof (@play_deterministic host params memoryId initial playing
                (mkCtx suspended 0 48000 resolves)
                (mkCtx suspended 5 48000 resolves)
                [1; 2; 3] [7; 8; 9]
                eq_refl eq_refl (fun _ => eq_refl) (fun _ => eq_refl) eq_refl)
    as (_ & _ & Hpad & _ & _ & Hticks & _).
  split; [exact Hpad | exact Hticks].
Defined.

Lemma play_order_witness :
  exists teardown build,
    events_since playing (snd (play host params memoryId playing))
    = [CtxResume] ++ teardown ++ build
    /\ In (ClearInterval 1%positive) teardown
    /\ hd_error build = Some (CreateGain (next_node playing)).
Proof.
  destruct (@play_order host params memoryId playing
              (mkCtx suspended 5 48000 resolves) eq_refl (fun _ => eq_refl))
    as (teardown & build & _ & Ev & _ & _ & Hc & _ & _ & Hb).
  exists teardown, build. repeat split; assumption.
Defined.

(** The replacing [play] calls [ctx.resume()] first and clears the interval
    second: the teardown does not come first. *)
Lemma play_resumes_before_teardown :
  ~ teardown_first
      (events_since playing (snd (play host params memoryId playing))).
Proof.
  intros H.
  assert (H0 : nth_error
                 (events_since playing
                    (snd (play host params memoryId playing))) 0
               = Some CtxResume) by (vm_compute; reflexivity).
  assert (H1 : nth_error
                 (events_since playing
                    (snd (play host params memoryId playing))) 1
               = Some (ClearInterval 1%positive)) by (vm_compute; reflexivity).
  specialize (H 0%nat 1%nat (ClearInterval 1%positive) H0 H1 eq_refl). lia.
Qed.

Lemma concrete_scenario_witness :
  noteDuration params == 0.75
  /\ map is_emit
         (fst (session_ticks host [1; 2; 3; 4]
                 (startGenerativeMelody params injected first_session)))
     = [true; false; true; false]
  /\ map is_emit
         (fst (session_ticks host [1; 2; 3]
                 (startGenerativeMelody params injected_then_low
                    first_session)))
     = [true; false; false].
Proof.
  destruct (@concrete_scenario host params first_session [1; 2; 3; 4]
              first_session_live (Qeq_refl 80) (Qeq_refl 0.5))
    as (Hd & _ & _ & _ & Hp & _ & H3).
  split; [exact Hd|]. split; [exact Hp|].
  apply (H3 (fun i => nth i [0.9; 0.2; 0.95; 0.3; 0.1; 0.6] 0) 1 2 3);
    [reflexivity | reflexivity | reflexivity | reflexivity
    | discriminate | reflexivity].
Defined.

(** The four draws do not settle four firings: on a sequence that begins
    0.9, 0.2, 0.95, 0.3 and goes on with 0.1, 0.6 the firings are emit,
    skip, skip, emit. *)
Lemma four_draws_leave_pattern_open :
  map is_emit
      (fst (session_ticks host [1; 2; 3; 4]
              (startGenerativeMelody params injected_then_low first_session)))
  = [true; false; false; true]
  /\ ~ (forall f : nat -> Q,
         f 0%nat = 0.9 -> f 1%nat = 0.2 -> f 2%nat = 0.95 -> f 3%nat = 0.3 ->
         map is_emit
             (fst (session_ticks host [1; 2; 3; 4]
                     (startGenerativeMelody params (from_stream f)
                        first_session)))
         = alternating 4 true).
Proof.
  assert (E : map is_emit
                (fst (session_ticks host [1; 2; 3; 4]
                        (startGenerativeMelody params injected_then_low
                           first_session)))
              = [true; false; false; true]) by (vm_compute; reflexivity).
  split; [exact E|].
  intros H.
  specialize (H (fun i => nth i [0.9; 0.2; 0.95; 0.3; 0.1; 0.6] 0)
                eq_refl eq_refl eq_refl eq_refl).
  change (from_stream (fun i => nth i [0.9; 0.2; 0.95; 0.3; 0.1; 0.6] 0))
    with injected_then_low in H.
  rewrite E in H. discriminate.
Qed.

Lemma complexity_monotone_witness :
  (emitted
     (fst (session_ticks host [1; 2; 3; 4; 5]%Q
             (startGenerativeMelody (with_complexity 0.1)
                (getRandomFromSeed host memoryId) first_session)))
   <= emitted
        (fst (session_ticks host [1; 2; 3; 4; 5]%Q
                (startGenerativeMelody (with_complexity 1.0)
                   (getRandomFromSeed host memoryId) first_session))))%nat.
Proof.
  apply (@complexity_monotone host (with_complexity 0.1) (with_complexity 1.0)
           (getRandomFromSeed host memoryId) [1; 2; 3; 4; 5]
           first_session first_session
           first_session_live first_session_live
           (seeded_unit_range host memoryId)).
  vm_compute. discriminate.
Defined.

Lemma stop_never_raises_witness :
  fst (play host params memoryId (snd (stop host first_session))) = Normal
  /\ isPlaying
       (eng (snd (play host params memoryId (snd (stop host first_session)))))
     = true.
Proof.
  destruct (stop_never_raises host first_session)
    as (_ & _ & _ & _ & _ & _ & _ & _ & H).
  destruct (H params memoryId (mkCtx running 0 48000 resolves))
    as (H1 & H2 & _); [reflexivity | discriminate |].
  split; [exact H1 | exact H2].
Defined.

Lemma tempo_default_witness :
  noteDuration (with_tempo 0) == 0.75
  /\ noteDuration (with_tempo (-60)) < 0.
Proof.
  split.
  - apply (proj1 (tempo_default (with_tempo 0))). reflexivity.
  - apply (proj2 (proj2 (tempo_default (with_tempo (-60))))). reflexivity.
Defined.

(** The beats per minute behind a zero tempo are 80, not the tempo. *)
Lemma zero_tempo_replaced :
  tempo (with_tempo 0) <= 0 /\ ~ tempo_used_directly (with_tempo 0).
Proof.
  split; [discriminate|]. unfold tempo_used_directly. vm_compute.
  discriminate.
Qed.

Lemma scale_fallback_witness :
  scaleNotes (with_scale (lit "chromatic")) = pentatonic_scale
  /\ scaleNotes (with_scale (lit "major")) = pentatonic_scale
  /\ scaleNotes (with_scale (lit "minor")) = minor_scale.
Proof.
  split; [|split].
  - apply (proj1 (proj2 (scale_fallback (with_scale (lit "chromatic"))
                                         injected initial))).
    discriminate.
  - apply (proj1 (proj2 (scale_fallback (with_scale (lit "major"))
                                         injected initial))).
    discriminate.
  - apply (proj1 (scale_fallback (with_scale (lit "minor"))
                                 injected initial)).
    reflexivity.
Defined.

(** The major entry ends on the octave, not past it. *)
Lemma major_ends_on_octave :
  ~ Forall (fun e => spans_past_octave (snd e)) scales.
Proof.
  intros H. inversion H as [|e l [_ Hmax] _]; subst.
  vm_compute in Hmax. discriminate.
Qed.

Lemma pad_voice_witness :
  fst (startPad params (getRandomFromSeed host memoryId) first_session)
  = advance 6 (getRandomFromSeed host memoryId)
  /\ List.length
       (currentOscillators
          (eng (snd (startPad params (getRandomFromSeed host memoryId)
                       first_session))))
     = 12%nat.
Proof.
  destruct (@pad_voice host params memoryId first_session
              (mkCtx running 0 48000 resolves) 0%nat eq_refl eq_refl)
    as (H1 & _ & _ & _ & _ & _ & H2).
  split; [exact H1 | now rewrite H2].
Defined.

Lemma tick_draw_count_witness :
  option_map cl_rng
    (find_interval 1%positive
       (intervals (snd (ticks host 1%positive [1; 2; 3] first_session))))
  = Some (advance
            (3 + 2 * passes (fst (ticks host 1%positive [1; 2; 3]%Q
                                   first_session)))%nat
                  (advance 6 (getRandomFromSeed host memoryId))).
Proof.
  destruct (@tick_draw_count host
              (mkClosure params (scaleNotes params)
                         (advance 6 (getRandomFromSeed host memoryId)))
              first_session 1%positive [1; 2; 3]
              first_session_live eq_refl)
    as (_ & _ & _ & H).
  exact H.
Defined.

End Instances.

(** * Further properties of the engine *)

Section Coverage.

Variable host : Host.

Local Open Scope Q_scope.

Ltac engine_cbn :=
  cbv beta iota zeta delta
    [fresh log with_eng with_intervals push_oscillator set_ctx set_isPlaying
     set_masterGain set_melodyInterval set_reverbNode set_delayNode
     set_currentOscillators eng next_node next_timer intervals trace ctx
     isPlaying masterGain melodyInterval reverbNode delayNode
     currentOscillators state currentTime sampleRate on_resume fst snd
     fold_left].

Ltac flatten_trace :=
  repeat rewrite <- app_assoc; cbn [app].

(** ** The seed hash *)

Lemma to_int32_wraps (z : Z) :
  to_int32 z = (z - 2 ^ 32 * ((z + 2 ^ 31) / 2 ^ 32))%Z.
Proof.
  unfold to_int32. rewrite Z.mod_eq by lia. lia.
Qed.

Lemma to_int32_range (z : Z) : (- 2 ^ 31 <= to_int32 z < 2 ^ 31)%Z.
Proof.
  unfold to_int32.
  pose proof (Z.mod_pos_bound (z + 2 ^ 31) (2 ^ 32)) as H. lia.
Qed.

Lemma shl_5 (h : Z) : shl h 5 = to_int32 (to_int32 h * 32).
Proof.
  unfold shl. change (Z.land 5 31) with 5%Z.
  now rewrite Z.shiftl_mul_pow2 by lia.
Qed.

Lemma hash_step_wraps (h c : Z) :
  exists K, hash_step h c = (31 * h + c + 2 ^ 32 * K)%Z.
Proof.
  unfold hash_step. rewrite shl_5.
  rewrite (to_int32_wraps (to_int32 h * 32)), (to_int32_wraps h).
  set (q1 := ((h + 2 ^ 31) / 2 ^ 32)%Z).
  set (q2 := (((h - 2 ^ 32 * q1) * 32 + 2 ^ 31) / 2 ^ 32)%Z).
  exists (- q2 - 32 * q1)%Z. lia.
Qed.

Lemma hash_fold_wraps (seed : JSString) :
  forall h1 h2 K0,
    h1 = (h2 + 2 ^ 32 * K0)%Z ->
    exists K,
      fold_left hash_step seed h1
      = (fold_left (fun h c => (31 * h + c)%Z) seed h2 + 2 ^ 32 * K)%Z.
Proof.
  induction seed as [|c seed IH]; intros h1 h2 K0 E; cbn [fold_left].
  - now exists K0.
  - destruct (hash_step_wraps h1 c) as [K EK].
    apply (IH _ _ (K + 31 * K0)%Z). rewrite EK, E. lia.
Qed.

Lemma hash_step_bound (h c : Z) :
  (0 <= c <= 65535)%Z ->
  (Z.abs (hash_step h c) <= Z.abs h + (2 ^ 31 + 65535))%Z.
Proof.
  intros Hc. unfold hash_step. rewrite shl_5.
  pose proof (to_int32_range (to_int32 h * 32)). lia.
Qed.

Lemma hash_fold_bound (seed : JSString) :
  Forall (fun c => (0 <= c <= 65535)%Z) seed ->
  forall h,
    (Z.abs (fold_left hash_step seed h)
     <= Z.abs h + Z.of_nat (List.length seed) * (2 ^ 31 + 65535))%Z.
Proof.
  induction 1 as [|c seed Hc _ IH]; intros h; cbn [fold_left List.length].
  - lia.
  - specialize (IH (hash_step h c)).
    pose proof (hash_step_bound h Hc). lia.
Qed.

(** X1.  The seed hash is the base-31 polynomial hash of the code units up
    to a multiple of 2^32: the shift wraps to 32 bits, so the two agree
    modulo 2^32 for every seed. *)
Theorem seed_hash_congruent (seed : JSString) :
  (seed_hash seed mod 2 ^ 32 = poly31 seed mod 2 ^ 32)%Z.
Proof.
  unfold seed_hash, poly31.
  destruct (@hash_fold_wraps seed 0%Z 0%Z 0%Z eq_refl) as [K E].
  rewrite E, Z.mul_comm. apply Z_mod_plus_full.
Qed.

(** X2.  The hash itself is not wrapped: for a seed of UTF-16 code units it
    grows by at most 2^31 + 65535 per code unit, so for every seed of at
    most 2^21 code units the counter of the generator, after any number of
    draws up to 2^40, is an integer that binary64 holds exactly (below
    2^53 in absolute value). *)
Theorem seed_hash_exact (seed : JSString) (k : nat) :
  Forall (fun c => (0 <= c <= 65535)%Z) seed ->
  (Z.of_nat (List.length seed) <= 2 ^ 21)%Z ->
  (Z.of_nat k <= 2 ^ 40)%Z ->
  (Z.abs (seed_hash seed)
   <= Z.of_nat (List.length seed) * (2 ^ 31 + 65535))%Z
  /\ exists counter,
       advance k (getRandomFromSeed host seed)
       = mkRng counter (seeded_next host)
       /\ (Z.abs counter < 2 ^ 53)%Z.
Proof.
  intros Hs Hl Hk.
  pose proof (hash_fold_bound Hs 0%Z) as Hb. fold (seed_hash seed) in Hb.
  split; [lia|].
  exists (seed_hash seed + Z.of_nat k)%Z. split; [apply advance_seeded|].
  lia.
Qed.

(** X3.  Two seeds that differ only in their last code unit, by [d], have
    hashes that differ by [d], so the second generator is the first one
    started [d] draws later: every draw [k] of the second is draw [d + k]
    of the first. *)
Theorem neighbouring_seeds_shift (pre : JSString) (c : Z) (d k : nat) :
  seed_hash (pre ++ [(c + Z.of_nat d)%Z])
  = (seed_hash (pre ++ [c]) + Z.of_nat d)%Z
  /\ draw k (getRandomFromSeed host (pre ++ [(c + Z.of_nat d)%Z]))
     = draw (d + k) (getRandomFromSeed host (pre ++ [c]))
  /\ advance k (getRandomFromSeed host (pre ++ [(c + Z.of_nat d)%Z]))
     = advance (d + k) (getRandomFromSeed host (pre ++ [c])).
Proof.
  assert (E : seed_hash (pre ++ [(c + Z.of_nat d)%Z])
              = (seed_hash (pre ++ [c]) + Z.of_nat d)%Z).
  { unfold seed_hash. rewrite !fold_left_app. cbn [fold_left].
    unfold hash_step. lia. }
  split; [exact E|]. split.
  - rewrite !draw_seeded, E. cbv zeta.
    replace (seed_hash (pre ++ [c]) + Z.of_nat d + Z.of_nat k)%Z
      with (seed_hash (pre ++ [c]) + Z.of_nat (d + k))%Z by lia.
    reflexivity.
  - rewrite !advance_seeded, E. f_equal. lia.
Qed.

(** ** Firings *)

Lemma melodyCallback_world (c : MelodyClosure) (w : World)
  (cx : AudioContext) (mg : NodeId) :
  isPlaying (eng w) = true ->
  ctx (eng w) = Some cx ->
  masterGain (eng w) = Some mg ->
  snd (melodyCallback host c w)
  = match tick_outcome host c with
    | Emitted _ _ freq =>
        mkWorld (eng w) (2 + next_node w)%nat (next_timer w) (intervals w)
                (trace w ++ note_calls (next_node w) (currentTime cx) freq mg)
    | Threw _ _ =>
        mkWorld (eng w) (1 + next_node w)%nat (next_timer w) (intervals w)
                (trace w ++ [CreateOscillator (next_node w);
                             SetType (next_node w) sine])
    | _ => w
    end.
Proof.
  intros Hp Hc Hm. unfold melodyCallback, tick_outcome.
  rewrite Hp, Hc, Hm.
  rewrite (call_draw (cl_rng c)). fold (gate c).
  destruct (gate c); [|reflexivity].
  rewrite (call_draw (advance 1 (cl_rng c))).
  rewrite (call_draw (advance 1 (advance 1 (cl_rng c)))).
  change (draw 0 (advance 1 (cl_rng c))) with (draw 1 (cl_rng c)).
  change (draw 0 (advance 1 (advance 1 (cl_rng c))))
    with (draw 2 (cl_rng c)).
  fold (tick_noteIdx c). fold (tick_octave c).
  destruct (index (cl_scaleNotes c) (tick_noteIdx c)) as [offset|];
    engine_cbn; flatten_trace; reflexivity.
Qed.

Lemma update_interval_keys (id : TimerId) (c : MelodyClosure)
  (l : list (TimerId * MelodyClosure)) :
  map fst (update_interval id c l) = map fst l.
Proof.
  induction l as [|[k x] l IH]; [reflexivity|].
  cbn [update_interval]. destruct (Pos.eqb k id); cbn [map fst]; congruence.
Qed.

Lemma events_since_same (w w' : World) :
  trace w' = trace w -> events_since w w' = [].
Proof.
  intros E. apply events_since_app. now rewrite app_nil_r.
Qed.

Lemma at_time_fields (t : Q) (e : Engine) :
  set_ctx (ctx e) (at_time t e) = e.
Proof.
  unfold at_time. destruct e as [[cx|] ip mg mi rv dl os]; reflexivity.
Qed.

Lemma at_time_reads (t : Q) (e : Engine) (cx : AudioContext) :
  ctx (at_time t e) = Some cx ->
  currentTime cx = t /\ masterGain (at_time t e) = masterGain e.
Proof.
  unfold at_time. destruct e as [[c|] ip mg mi rv dl os]; cbn;
    [|discriminate].
  intros H. injection H as <-. split; reflexivity.
Qed.

(** X4.  A firing of any interval, on any engine, at clock reading [t]
    leaves every engine field but the audio clock as it was (a melody note
    is never added to the tracked voices) and registers and clears no
    interval.  Its backend calls are fixed by its outcome: none when the
    interval is cleared, the guard fails or the tick skips; for an emitted
    note exactly the twelve calls of the callback body on two fresh nodes,
    with the oscillator started at [t], stopped at [t + 2.0], and one
    cleanup timeout of 2100 ms as the only timer set; and the creation of
    the oscillator and its type alone when the degree is out of the table.
    So a firing makes no teardown or resume call, starts at most one node,
    and calls [stop] on exactly the nodes it starts. *)
Theorem tick_is_self_contained (id : TimerId) (t : Q) (w : World) :
  let r := fire host id t w in
  let w' := snd r in
  let evs := events_since w w' in
  set_ctx (ctx (eng w)) (eng w') = eng w
  /\ next_timer w' = next_timer w
  /\ map fst (intervals w') = map fst (intervals w)
  /\ match fst r with
     | Some (Emitted _ _ freq) =>
         exists mg,
           masterGain (eng w) = Some mg
           /\ evs = note_calls (next_node w) t freq mg
     | Some (Threw _ _) =>
         evs = [CreateOscillator (next_node w); SetType (next_node w) sine]
     | _ => evs = []
     end
  /\ Forall (fun e => is_note_call e = true) evs
  /\ stops evs = started evs
  /\ (List.length (started evs) <= 1)%nat.
Proof.
  intros r w' evs. subst evs w' r. unfold fire.
  destruct (find_interval id (intervals w)) as [c|];
    [|cbn [fst snd]; rewrite events_since_same by reflexivity;
      destruct (eng w) as [[cx|] ip mg mi rv dl os];
      repeat match goal with |- _ /\ _ => split end; auto].
  set (w0 := with_eng (at_time t) w).
  assert (H0 : set_ctx (ctx (eng w)) (eng w0) = eng w)
    by apply at_time_fields.
  destruct (melodyCallback host c w0) as [[o c'] w1] eqn:E.
  assert (E1 : w1 = snd (melodyCallback host c w0)) by now rewrite E.
  assert (Eo : o = fst (fst (melodyCallback host c w0))) by now rewrite E.
  cbn [fst snd with_intervals eng next_timer intervals].
  destruct (isPlaying (eng w0)) eqn:Hp;
    [destruct (ctx (eng w0)) as [cx|] eqn:Hc;
     [destruct (masterGain (eng w0)) as [mg|] eqn:Hm|]|].
  - assert (Hl : live w0)
      by (unfold live; rewrite Hp, Hc, Hm; repeat split; discriminate).
    destruct (@melodyCallback_live host c w0 Hl) as (w2 & E2 & _).
    rewrite E2 in Eo. cbn [fst] in Eo.
    rewrite (melodyCallback_world c w0 Hp Hc Hm) in E1.
    destruct (at_time_reads t (eng w) Hc) as [Ht Hg].
    change (eng w0) with (at_time t (eng w)) in Hm. rewrite Hg in Hm.
    subst o. destruct (tick_outcome host c) as [ | |i oc freq|i oc];
      subst w1; cbn [eng next_timer intervals trace];
      rewrite update_interval_keys;
      (split; [exact H0|]); (split; [reflexivity|]);
      (split; [reflexivity|]);
      try (rewrite events_since_same by reflexivity;
           repeat match goal with |- _ /\ _ => split end; auto).
    + rewrite (@events_since_app w _
                 (note_calls (next_node w0) (currentTime cx) freq mg))
        by reflexivity.
      rewrite Ht. change (next_node w0) with (next_node w).
      split; [exists mg; split; [exact Hm | reflexivity]|].
      split; [repeat constructor|]. split; [reflexivity|].
      cbn. auto.
    + rewrite (@events_since_app w _
                 [CreateOscillator (next_node w0); SetType (next_node w0) sine])
        by reflexivity.
      change (next_node w0) with (next_node w).
      split; [reflexivity|].
      split; [repeat constructor|]. split; [reflexivity|].
      cbn. auto.
  - rewrite melodyCallback_inactive in E1, Eo
      by (unfold live; rewrite Hm; intros (_ & _ & H); congruence).
    cbn [fst] in Eo. subst o w1. cbn [snd eng next_timer intervals].
    rewrite update_interval_keys, events_since_same by reflexivity.
    repeat match goal with |- _ /\ _ => split end; auto.
  - rewrite melodyCallback_inactive in E1, Eo
      by (unfold live; rewrite Hc; intros (_ & H & _); congruence).
    cbn [fst] in Eo. subst o w1. cbn [snd eng next_timer intervals].
    rewrite update_interval_keys, events_since_same by reflexivity.
    repeat match goal with |- _ /\ _ => split end; auto.
  - rewrite melodyCallback_inactive in E1, Eo
      by (unfold live; rewrite Hp; intros (H & _); congruence).
    cbn [fst] in Eo. subst o w1. cbn [snd eng next_timer intervals].
    rewrite update_interval_keys, events_since_same by reflexivity.
    repeat match goal with |- _ /\ _ => split end; auto.
Qed.

Lemma find_filtered (id : TimerId) (l : list (TimerId * MelodyClosure)) :
  find_interval id (filter (fun e => negb (Pos.eqb (fst e) id)) l) = None.
Proof.
  induction l as [|[k c] l IH]; [reflexivity|].
  cbn [filter fst]. destruct (Pos.eqb k id) eqn:E; cbn [negb]; [exact IH|].
  cbn [find_interval]. now rewrite E.
Qed.

(** X5.  After [stop] the melody is silent whichever way the host behaves:
    the interval the engine held is out of the timer table, so firing it
    runs nothing; and a callback that runs all the same returns at the
    liveness guard, reading no draw and making no backend call. *)
Theorem stopped_tick_is_noop (w : World) (c : MelodyClosure) (t : Q) :
  melodyCallback host c (snd (stop host w)) = (Inactive, c, snd (stop host w))
  /\ match melodyInterval (eng w) with
     | Some id => fire host id t (snd (stop host w)) = (None, snd (stop host w))
     | None => True
     end.
Proof.
  rewrite stop_eq. cbn [snd]. split.
  - apply melodyCallback_inactive. unfold live, stopped. cbn.
    intros (H & _). discriminate.
  - destruct (melodyInterval (eng w)) as [id|] eqn:E; [|exact I].
    unfold fire, stopped. cbn [intervals]. rewrite E.
    now rewrite find_filtered.
Qed.

(** ** Sessions never raise *)

Lemma tick_outcome_shape (c : MelodyClosure) :
  unit_range (cl_rng c) -> cl_scaleNotes c <> [] ->
  well_formed_outcome host (cl_params c) (cl_scaleNotes c)
                      (Some (tick_outcome host c)).
Proof.
  intros Hu Hne. unfold well_formed_outcome, tick_outcome.
  destruct (gate c); [right | now left].
  destruct (Hu 1%nat) as [H0 H1].
  destruct (index_in_range Hne H0 H1) as [offset E].
  fold (tick_noteIdx c) in E. rewrite E.
  exists (tick_noteIdx c), (tick_octave c), offset.
  split; [reflexivity|]. split; [exact E|].
  unfold tick_octave. destruct (gtb (draw 2 (cl_rng c)) 0.7); auto.
Qed.

Lemma run_outcomes_shape (n : nat) :
  forall c,
    unit_range (cl_rng c) -> cl_scaleNotes c <> [] ->
    Forall (well_formed_outcome host (cl_params c) (cl_scaleNotes c))
           (map Some (fst (run host n c))).
Proof.
  induction n as [|n IH]; intros c Hu Hne; [constructor|].
  cbn [run].
  assert (Hu' : unit_range (cl_rng (tick_closure host c)))
    by (unfold tick_closure; cbn [cl_rng]; now apply unit_range_advance).
  specialize (IH (tick_closure host c) Hu' Hne).
  destruct (run host n (tick_closure host c)) as [os c'].
  cbn [fst map] in *. constructor; [now apply tick_outcome_shape | exact IH].
Qed.

(** X6.  A session started by [play] never raises in its timer callback
    and never idles: for every host and every seed, each firing of the
    session either skips or schedules a note whose degree is an index into
    the selected scale table, whose octave factor is 1 or 2, and whose
    frequency is [baseFrequency * 2^(offset/12) * octave]. *)
Theorem session_never_throws (p : MusicalParams) (id : JSString) (w : World)
  (c : AudioContext) (clock : list Q) :
  ctx (eng w) = Some c ->
  (state c = suspended -> on_resume c = resolves) ->
  Forall (well_formed_outcome host p (scaleNotes p))
         (fst (session_ticks host clock (snd (play host p id w)))).
Proof.
  intros Hc Hr.
  destruct (play_spec host p id w Hc Hr)
    as (w' & c1 & b & E & _ & _ & _ & C1 & I1 & M1 & _ & S1 & _).
  rewrite E. cbn [snd].
  assert (L : live w') by (unfold live; rewrite I1, C1, M1;
                           repeat split; discriminate).
  destruct (session_ticks_live host clock L S1) as [T _].
  rewrite T.
  apply (run_outcomes_shape (List.length clock)
           (mkClosure p (scaleNotes p)
                      (advance 6 (getRandomFromSeed host id)))).
  - cbn [cl_rng]. apply unit_range_advance, seeded_unit_range.
  - apply scaleNotes_nonempty.
Qed.

(** ** When the backend does not resume *)

Lemma play_unresolved (p : MusicalParams) (id : JSString)
  (w : World) (c : AudioContext) :
  ctx (eng w) = Some c ->
  state c = suspended ->
  on_resume c <> resolves ->
  play host p id w
  = (match on_resume c with rejects => Throw | _ => Pending end,
     log [CtxResume] w).
Proof.
  intros Hc Hs Hr.
  assert (E : resume w
              = (match on_resume c with rejects => Throw | _ => Pending end,
                 log [CtxResume] w)).
  { unfold resume. rewrite Hc, Hs. destruct (on_resume c);
      [congruence | reflexivity | reflexivity]. }
  unfold play. rewrite Hc. unfold seq at 1. rewrite E.
  destruct (on_resume c); [congruence | reflexivity | reflexivity].
Qed.

(** X7.  When the context is suspended and [ctx.resume()] does not resolve,
    [play] ends there (rejected, or never continued): the only backend call
    is [ctx.resume()], no teardown happens, and every engine field, the
    timer table and the node allocator are as before, so a session that was
    playing stays registered. *)
Theorem failed_resume_keeps_session (p : MusicalParams) (id : JSString)
  (w : World) (c : AudioContext) :
  ctx (eng w) = Some c ->
  state c = suspended ->
  on_resume c <> resolves ->
  let r := play host p id w in
  fst r = match on_resume c with rejects => Throw | _ => Pending end
  /\ eng (snd r) = eng w
  /\ intervals (snd r) = intervals w
  /\ next_node (snd r) = next_node w
  /\ next_timer (snd r) = next_timer w
  /\ events_since w (snd r) = [CtxResume].
Proof.
  intros Hc Hs Hr r. subst r. rewrite (play_unresolved p id w Hc Hs Hr).
  cbn [fst snd log eng intervals next_node next_timer].
  repeat split; try reflexivity. now apply events_since_app.
Qed.

(** ** The world [play] leaves *)

Lemma setupEffects_frame (w : World) (c : AudioContext) (mg : NodeId) :
  ctx (eng w) = Some c ->
  masterGain (eng w) = Some mg ->
  exists fx,
    trace (setupEffects w) = trace w ++ fx
    /\ stops fx = [] /\ disconnects fx = []
    /\ List.length (filter is_effect_unit fx)
       = (match reverbNode (eng w) with Some _ => 0 | None => 2 end
          + match delayNode (eng w) with Some _ => 0 | None => 1 end)%nat
    /\ reverbNode (eng (setupEffects w)) <> None
    /\ delayNode (eng (setupEffects w)) <> None
    /\ match reverbNode (eng w) with
       | Some r => reverbNode (eng (setupEffects w)) = Some r
       | None => True
       end
    /\ match delayNode (eng w) with
       | Some d => delayNode (eng (setupEffects w)) = Some d
       | None => True
       end
    /\ set_reverbNode (reverbNode (eng w))
         (set_delayNode (delayNode (eng w)) (eng (setupEffects w)))
       = eng w
    /\ next_timer (setupEffects w) = next_timer w
    /\ intervals (setupEffects w) = intervals w
    /\ (next_node w < next_node (setupEffects w))%nat.
Proof.
  intros Hc Hm. unfold setupEffects. rewrite Hc, Hm.
  destruct w as [[cx ip g mi rv dl os] nn nt iv tr].
  cbn in Hc, Hm. subst cx g.
  unfold setupReverb, setupDelay.
  destruct rv as [r|], dl as [d|]; engine_cbn; flatten_trace;
    (eexists; split; [reflexivity|]);
    repeat match goal with |- _ /\ _ => split end;
    try reflexivity; try discriminate; try exact I; lia.
Qed.

Lemma play_full (p : MusicalParams) (id : JSString) (w : World)
  (c : AudioContext) :
  ctx (eng w) = Some c ->
  (state c = suspended -> on_resume c = resolves) ->
  exists w1 c1 w4 fx,
    resume w = (Normal, w1)
    /\ ctx (eng w1) = Some c1
    /\ set_ctx (Some c) (eng w1) = eng w
    /\ next_node w1 = next_node w
    /\ next_timer w1 = next_timer w
    /\ intervals w1 = intervals w
    /\ trace w1
       = trace w ++ match state c with suspended => [CtxResume] | _ => [] end
    /\ w4 = setupEffects (snd (createMasterGain (stopped host w1)))
    /\ trace w4
       = trace w1 ++ teardown_calls host w1
         ++ [CreateGain (next_node w);
             SetValueAtTime (gain (next_node w)) 0 (currentTime c1);
             LinearRampToValueAtTime (gain (next_node w)) 0.5
                                     (currentTime c1 + 1.0);
             Connect (next_node w) destination]
         ++ fx
    /\ stops fx = [] /\ disconnects fx = []
    /\ List.length (filter is_effect_unit fx)
       = (match reverbNode (eng w) with Some _ => 0 | None => 2 end
          + match delayNode (eng w) with Some _ => 0 | None => 1 end)%nat
    /\ reverbNode (eng w4) <> None
    /\ delayNode (eng w4) <> None
    /\ match reverbNode (eng w) with
       | Some r => reverbNode (eng w4) = Some r
       | None => True
       end
    /\ match delayNode (eng w) with
       | Some d => delayNode (eng w4) = Some d
       | None => True
       end
    /\ ctx (eng w4) = Some c1
    /\ masterGain (eng w4) = Some (next_node w)
    /\ next_timer w4 = next_timer w
    /\ intervals w4 = intervals (stopped host w1)
    /\ (next_node w < next_node w4)%nat
    /\ play host p id w
       = (Normal,
          let k := next_node w4 in
          let rng := getRandomFromSeed host id in
          mkWorld
            (mkEngine (Some c1) true (Some (next_node w))
                      (Some (next_timer w)) (reverbNode (eng w4))
                      (delayNode (eng w4))
                      [k; 2 + k; 4 + k; 6 + k; 8 + k; 10 + k]%nat)
            (12 + k)%nat (Pos.succ (next_timer w))
            ((next_timer w, mkClosure p (scaleNotes p) (advance 6 rng))
               :: intervals w4)
            (trace w4
             ++ (pad_tone_calls k (currentTime c1) (baseFrequency p / 2) 1
                                (next_node w) (draw 0 rng) (draw 1 rng)
                 ++ pad_tone_calls (4 + k)%nat (currentTime c1)
                                   (baseFrequency p / 2) 1.5 (next_node w)
                                   (draw 2 rng) (draw 3 rng)
                 ++ pad_tone_calls (8 + k)%nat (currentTime c1)
                                   (baseFrequency p / 2) 1.25 (next_node w)
                                   (draw 4 rng) (draw 5 rng))
             ++ [SetInterval (next_timer w) (noteDuration p * 1000)])).
Proof.
  intros Hc Hr.
  destruct (resume_spec w Hc Hr)
    as (w1 & c1 & E1 & Hc1 & _ & He1 & Hnn1 & Hnt1 & Hiv1 & Htr1).
  set (w2 := stopped host w1).
  assert (Hc2 : ctx (eng w2) = Some c1) by exact Hc1.
  pose proof (createMasterGain_spec w2 Hc2) as E3.
  assert (Hg : next_node w2 = next_node w) by exact Hnn1.
  assert (Hnt2 : next_timer w2 = next_timer w) by exact Hnt1.
  rewrite Hg, Hnt2 in E3. set (g := next_node w) in *.
  set (master := [CreateGain g; SetValueAtTime (gain g) 0 (currentTime c1);
                  LinearRampToValueAtTime (gain g) 0.5 (currentTime c1 + 1.0);
                  Connect g destination]) in *.
  set (w3 := mkWorld (set_masterGain (Some g) (eng w2)) (S g)
                     (next_timer w) (intervals w2) (trace w2 ++ master))
    in E3.
  assert (Hw3 : snd (createMasterGain w2) = w3) by now rewrite E3.
  destruct (@setupEffects_frame w3 c1 g Hc2 eq_refl)
    as (fx & Htr4 & Hs4 & Hd4 & Hn4 & Hrn & Hdn & Hrk & Hdk & He4
        & Hnt4 & Hiv4 & Hnn4).
  pose proof (effects_keep_fields He4) as (Hc4 & Hp4 & Hm4 & Hmi4 & Ho4).
  set (w4 := setupEffects w3) in *.
  rewrite (Hc2 : ctx (eng w3) = Some c1) in Hc4.
  change (masterGain (eng w3)) with (Some g) in Hm4.
  change (currentOscillators (eng w3)) with (@nil NodeId) in Ho4.
  change (next_timer w3) with (next_timer w) in Hnt4.
  change (intervals w3) with (intervals w2) in Hiv4.
  change (next_node w3) with (S g) in Hnn4.
  assert (Hrv : reverbNode (eng w3) = reverbNode (eng w)).
  { cbn. rewrite <- He1. now destruct (eng w1). }
  assert (Hdl : delayNode (eng w3) = delayNode (eng w)).
  { cbn. rewrite <- He1. now destruct (eng w1). }
  rewrite Hrv in Hrk, Hn4. rewrite Hdl in Hdk, Hn4.
  pose proof (startPad_spec p (getRandomFromSeed host id) w4 Hc4 Hm4) as E5.
  cbv zeta in E5. rewrite Ho4 in E5. cbn [app] in E5.
  exists w1, c1, w4, fx.
  repeat match goal with |- _ /\ _ => split end;
    try assumption; try reflexivity.
  - change (w4 = setupEffects (snd (createMasterGain w2))).
    now rewrite Hw3.
  - rewrite Htr4. cbn [w3 trace w2 stopped]. now rewrite <- !app_assoc.
  - lia.
  - unfold play. rewrite Hc.
    unfold seq at 1. rewrite E1.
    unfold seq at 1. rewrite stop_eq. fold w2.
    unfold seq at 1. rewrite E3.
    unfold seq at 1. unfold act at 1. fold w4.
    rewrite E5. unfold startGenerativeMelody.
    cbn [eng ctx set_currentOscillators]. rewrite Hc4.
    unfold log, with_eng, set_melodyInterval, set_isPlaying,
      set_currentOscillators.
    cbn [eng next_node next_timer intervals trace ctx isPlaying masterGain
         melodyInterval reverbNode delayNode currentOscillators].
    rewrite Hc4, Hm4, Hnt4.
    rewrite <- !app_assoc. reflexivity.
Qed.

Lemma teardown_builds_nothing (evs : list Event) :
  Forall (fun e => is_teardown e = true) evs ->
  filter is_effect_unit evs = [].
Proof.
  induction 1 as [|e evs He _ IH]; [reflexivity|].
  cbn [filter]. rewrite IH. destruct e; try discriminate; reflexivity.
Qed.

(** X8.  The effects bus is built once and kept: after a [play] that gets
    past the resume, the engine holds a reverb and a delay; the ones it held
    before are the ones it holds after; the [play] creates a convolver with
    its impulse buffer only when there was no reverb and a delay unit only
    when there was no delay; and [stop] leaves both in place. *)
Theorem effects_bus_built_once (p : MusicalParams) (id : JSString) (w : World)
  (c : AudioContext) :
  ctx (eng w) = Some c ->
  (state c = suspended -> on_resume c = resolves) ->
  let w' := snd (play host p id w) in
  reverbNode (eng w') <> None
  /\ delayNode (eng w') <> None
  /\ match reverbNode (eng w) with
     | Some r => reverbNode (eng w') = Some r
     | None => True
     end
  /\ match delayNode (eng w) with
     | Some d => delayNode (eng w') = Some d
     | None => True
     end
  /\ List.length (filter is_effect_unit (events_since w w'))
     = (match reverbNode (eng w) with Some _ => 0 | None => 2 end
        + match delayNode (eng w) with Some _ => 0 | None => 1 end)%nat
  /\ reverbNode (eng (snd (stop host w'))) = reverbNode (eng w')
  /\ delayNode (eng (snd (stop host w'))) = delayNode (eng w').
Proof.
  intros Hc Hr w'.
  destruct (play_full p id w Hc Hr)
    as (w1 & c1 & w4 & fx & _ & _ & _ & _ & _ & _ & Htr1 & _ & Htr4 & _ & _
        & Hn & Hrn & Hdn & Hrk & Hdk & _ & _ & _ & _ & _ & E).
  subst w'. rewrite E. cbv zeta. cbn [snd eng reverbNode delayNode].
  rewrite stop_eq. cbn [snd stopped eng reverbNode delayNode].
  repeat match goal with |- _ /\ _ => split end;
    try assumption; try reflexivity.
  erewrite events_since_app;
    [|cbn [trace]; rewrite Htr4, Htr1, <- !app_assoc; reflexivity].
  rewrite !filter_app, !length_app.
  rewrite (teardown_builds_nothing (teardown_calls_class host w1)).
  rewrite Hn. destruct (state c); cbn; lia.
Qed.

(** ** Frames of the operations *)

Lemma set_ctx_fields (a : option AudioContext) (e e' : Engine) :
  set_ctx a e' = e ->
  isPlaying e' = isPlaying e /\ masterGain e' = masterGain e
  /\ melodyInterval e' = melodyInterval e /\ reverbNode e' = reverbNode e
  /\ delayNode e' = delayNode e
  /\ currentOscillators e' = currentOscillators e.
Proof.
  intros <-. destruct e'. cbn. auto 10.
Qed.

Lemma stops_app (a b : list Event) : stops (a ++ b) = stops a ++ stops b.
Proof. apply flat_map_app. Qed.

Lemma resume_frame (w : World) :
  exists r,
    trace (snd (resume w)) = trace w ++ r
    /\ stops r = []
    /\ set_ctx (ctx (eng w)) (eng (snd (resume w))) = eng w
    /\ (ctx (eng (snd (resume w))) = None <-> ctx (eng w) = None)
    /\ next_node (snd (resume w)) = next_node w
    /\ next_timer (snd (resume w)) = next_timer w
    /\ intervals (snd (resume w)) = intervals w.
Proof.
  unfold resume.
  destruct w as [[[[st t sr outcome]|] ip mg mi rv dl os] nn nt iv tr];
    cbn [eng ctx state on_resume];
    [destruct st; [destruct outcome| |]|];
    cbn [snd log with_eng set_ctx eng ctx isPlaying masterGain
         melodyInterval reverbNode delayNode currentOscillators next_node
         next_timer intervals trace];
    try (exists [CtxResume]; repeat split; try reflexivity; discriminate);
    (exists []; rewrite app_nil_r; repeat split; try reflexivity;
     discriminate).
Qed.

Lemma fire_frame (id : TimerId) (t : Q) (w : World) :
  exists evs,
    trace (snd (fire host id t w)) = trace w ++ evs
    /\ (stops evs = []
        \/ (stops evs = [next_node w]
            /\ (next_node w < next_node (snd (fire host id t w)))%nat))
    /\ set_ctx (ctx (eng w)) (eng (snd (fire host id t w))) = eng w
    /\ (ctx (eng (snd (fire host id t w))) = None <-> ctx (eng w) = None)
    /\ (next_node w <= next_node (snd (fire host id t w)))%nat
    /\ next_timer (snd (fire host id t w)) = next_timer w
    /\ map fst (intervals (snd (fire host id t w))) = map fst (intervals w).
Proof.
  unfold fire.
  destruct (find_interval id (intervals w)) as [c|].
  2:{ exists []. cbn [snd]. rewrite app_nil_r.
      destruct (eng w) as [[cx|] ip mg mi rv dl os];
        repeat split; auto. }
  set (w0 := with_eng (at_time t) w).
  assert (H0 : set_ctx (ctx (eng w)) (eng w0) = eng w)
    by apply at_time_fields.
  assert (Hn : ctx (eng w0) = None <-> ctx (eng w) = None).
  { unfold w0, at_time. cbn [with_eng eng].
    destruct (eng w) as [[cx|] ip mg mi rv dl os]; cbn;
      split; intros; congruence. }
  destruct (melodyCallback host c w0) as [[o c'] w1] eqn:E.
  assert (E1 : w1 = snd (melodyCallback host c w0)) by now rewrite E.
  cbn [snd with_intervals eng next_timer next_node intervals trace].
  rewrite update_interval_keys.
  destruct (isPlaying (eng w0)) eqn:Hp;
    [destruct (ctx (eng w0)) as [cx|] eqn:Hc;
     [destruct (masterGain (eng w0)) as [mg|] eqn:Hm|]|].
  - rewrite (melodyCallback_world c w0 Hp Hc Hm) in E1.
    destruct (tick_outcome host c); subst w1;
      cbn [eng next_node next_timer intervals trace]; rewrite ?Hc.
    + exists []. rewrite app_nil_r.
      repeat match goal with |- _ /\ _ => split end; auto.
    + exists []. rewrite app_nil_r.
      repeat match goal with |- _ /\ _ => split end; auto.
    + exists (note_calls (next_node w) (currentTime cx) freq mg).
      repeat match goal with |- _ /\ _ => split end; auto;
        try (right; split; [reflexivity|]); cbn; lia.
    + exists [CreateOscillator (next_node w); SetType (next_node w) sine].
      repeat match goal with |- _ /\ _ => split end; auto; cbn; lia.
  - rewrite melodyCallback_inactive in E1
      by (unfold live; rewrite Hm; intros (_ & _ & H); congruence).
    subst w1. exists []. cbn [snd eng next_node next_timer intervals trace].
    rewrite app_nil_r, ?Hc.
    repeat match goal with |- _ /\ _ => split end; auto.
  - rewrite melodyCallback_inactive in E1
      by (unfold live; rewrite Hc; intros (_ & H & _); congruence).
    subst w1. exists []. cbn [snd eng next_node next_timer intervals trace].
    rewrite app_nil_r, ?Hc.
    repeat match goal with |- _ /\ _ => split end; auto.
  - rewrite melodyCallback_inactive in E1
      by (unfold live; rewrite Hp; intros (H & _); congruence).
    subst w1. exists []. cbn [snd eng next_node next_timer intervals trace].
    rewrite app_nil_r.
    repeat match goal with |- _ /\ _ => split end; auto.
Qed.

Lemma stops_voices_teardown (os : list NodeId) :
  forall tr, stops (voices_teardown host tr os) = os.
Proof.
  induction os as [|o os IH]; intros tr; [reflexivity|].
  cbn [voices_teardown]. rewrite stops_app, IH.
  now destruct (stop_throws host tr o).
Qed.

Lemma stops_teardown (w : World) :
  stops (teardown_calls host w) = currentOscillators (eng w).
Proof.
  unfold teardown_calls, timer_teardown, master_teardown.
  rewrite !stops_app, stops_voices_teardown.
  destruct (melodyInterval (eng w)), (masterGain (eng w)); cbn;
    now rewrite ?app_nil_r.
Qed.

(** ** One session at a time *)

Lemma stopped_intervals_empty (w : World) :
  single_session w -> intervals (stopped host w) = [].
Proof.
  intros [H _]. unfold stopped. cbn [intervals].
  destruct (melodyInterval (eng w)) as [id|]; [|exact H].
  destruct H as [c ->]. cbn. now rewrite Pos.eqb_refl.
Qed.

Lemma single_session_same (w w' : World) :
  single_session w ->
  set_ctx (ctx (eng w)) (eng w') = eng w ->
  (ctx (eng w') = None <-> ctx (eng w) = None) ->
  map fst (intervals w') = map fst (intervals w) ->
  single_session w'.
Proof.
  intros [Hi Hp] He Hn Hk.
  destruct (set_ctx_fields He) as (Ep & Em & Ei & _ & _ & Eo).
  unfold single_session. rewrite Ep, Em, Ei, Eo. split.
  - destruct (melodyInterval (eng w)) as [id|].
    + destruct Hi as [c Hc]. rewrite Hc in Hk.
      destruct (intervals w') as [|[k c'] [|x l]]; try discriminate.
      cbn in Hk. injection Hk as ->. now exists c'.
    + rewrite Hi in Hk. now destruct (intervals w').
  - intros H. destruct (Hp H) as (H1 & H2 & H3 & H4).
    repeat split; auto. intros E. apply H1. now apply Hn.
Qed.

Lemma step_single_session (op : Op) (w : World) :
  single_session w -> single_session (step host op w).
Proof.
  intros Hs. destruct op as [|p id| |id t|c]; cbn [step].
  - destruct (resume_frame w) as (r & _ & _ & He & Hn & _ & _ & Hi).
    apply (single_session_same _ Hs He Hn). now rewrite Hi.
  - destruct (ctx (eng w)) as [c|] eqn:Hc;
      [|unfold play; rewrite Hc; exact Hs].
    destruct (state c) eqn:Hst;
      [destruct (on_resume c) eqn:Hr| |].
    2,3: rewrite (play_unresolved p id w Hc Hst) by congruence;
         cbn [snd]; apply (single_session_same (log [CtxResume] w) Hs);
         cbn; try reflexivity; now destruct (eng w).
    all: assert (Hres : state c = suspended -> on_resume c = resolves)
           by (intros; congruence);
         destruct (play_full p id w Hc Hres)
           as (w1 & c1 & w4 & fx & E1 & Hc1 & He1 & _ & _ & Hi1 & _ & _ & _
               & _ & _ & _ & _ & _ & _ & _ & _ & _ & _ & Hi4 & _ & E);
         rewrite E; cbv zeta; cbn [snd];
         assert (Hs1 : single_session w1)
           by (apply (single_session_same w1 Hs);
               [rewrite <- He1; now destruct (eng w1)
               |rewrite Hc1, Hc; split; discriminate
               |now rewrite Hi1]);
         rewrite Hi4, (stopped_intervals_empty Hs1);
         split; cbn; [eauto | intros _; repeat split; discriminate].
  - rewrite stop_eq. cbn [snd]. split.
    + cbn [stopped eng melodyInterval]. now apply stopped_intervals_empty.
    + cbn. discriminate.
  - destruct (fire_frame id t w) as (evs & _ & _ & He & Hn & _ & _ & Hk).
    apply (single_session_same _ Hs He Hn Hk).
  - apply (single_session_same (with_eng (platform c) w) Hs).
    + cbn. unfold platform. now destruct (eng w) as [[?|] ? ? ? ? ? ?].
    + cbn. unfold platform. destruct (eng w) as [[?|] ? ? ? ? ? ?];
        cbn; split; congruence.
    + reflexivity.
Qed.

Lemma run_ops_invariant (P : World -> Prop) :
  (forall op w, P w -> P (step host op w)) ->
  forall ops w, P w -> P (run_ops host ops w).
Proof.
  intros Hstep. unfold run_ops.
  induction ops as [|op ops IH]; intros w Hw; [exact Hw|].
  cbn [fold_left]. apply IH. now apply Hstep.
Qed.

(** X9.  Single active session.  Whatever sequence of [resume], [play],
    [stop], interval firings and platform changes an engine goes through
    from its construction (each call run to its end before the next), the
    timer table holds at most one interval and it is the one the engine
    holds; and whenever the liveness flag is set the engine has a context,
    a master gain, an interval and exactly six tracked pad units. *)
Theorem single_session_invariant (ops : list Op)
  (backend : option AudioContext) :
  single_session (run_ops host ops (construct backend)).
Proof.
  apply run_ops_invariant; [apply step_single_session|].
  split; [reflexivity | discriminate].
Qed.

(** ** Voices are released once *)

Lemma voices_fresh_same (w w' : World) (evs : list Event) :
  voices_fresh w ->
  set_ctx (ctx (eng w)) (eng w') = eng w ->
  trace w' = trace w ++ evs ->
  (next_node w <= next_node w')%nat ->
  (stops evs = []
   \/ (stops evs = [next_node w] /\ (next_node w < next_node w')%nat)) ->
  voices_fresh w'.
Proof.
  intros (Hd & Hf & Ha & Hn) He Ht Hle Hs.
  destruct (set_ctx_fields He) as (_ & _ & _ & _ & _ & Eo).
  unfold voices_fresh. rewrite Eo, Ht, stops_app.
  rewrite Forall_forall in Hf, Ha.
  repeat match goal with |- _ /\ _ => split end.
  - exact Hd.
  - apply Forall_forall. intros o Ho. destruct (Hf o Ho) as [H1 H2].
    split; [lia|]. intros Hin. apply in_app_or in Hin.
    destruct Hin as [Hin|Hin]; [now apply H2|].
    destruct Hs as [Hs|[Hs _]]; rewrite Hs in Hin; [destruct Hin|].
    destruct Hin as [<-|[]]. lia.
  - apply Forall_forall. intros n Hin. apply in_app_or in Hin.
    destruct Hin as [Hin|Hin]; [specialize (Ha n Hin); lia|].
    destruct Hs as [Hs|[Hs Hlt]]; rewrite Hs in Hin; [destruct Hin|].
    destruct Hin as [<-|[]]. exact Hlt.
  - destruct Hs as [Hs|[Hs _]]; rewrite Hs; [now rewrite app_nil_r|].
    apply NoDup_app; [exact Hn | repeat constructor; intros [] |].
    intros n Hin [<-|[]]. specialize (Ha _ Hin). lia.
Qed.

Lemma voices_fresh_released (w w' : World) :
  voices_fresh w ->
  currentOscillators (eng w') = [] ->
  next_node w' = next_node w ->
  stops (trace w') = stops (trace w) ++ currentOscillators (eng w) ->
  voices_fresh w'.
Proof.
  intros (Hd & Hf & Ha & Hn) Eo En Es.
  unfold voices_fresh. rewrite Eo, En, Es.
  rewrite Forall_forall in Hf, Ha.
  repeat match goal with |- _ /\ _ => split end; try constructor.
  - apply Forall_forall. intros n Hin. apply in_app_or in Hin.
    destruct Hin as [Hin|Hin]; [now apply Ha | now apply Hf].
  - apply NoDup_app; [exact Hn | exact Hd |].
    intros n Hin Ho. now apply (Hf n Ho).
Qed.

Lemma stopped_voices_fresh (w : World) :
  voices_fresh w -> voices_fresh (stopped host w).
Proof.
  intros H. apply (@voices_fresh_released w (stopped host w) H);
    try reflexivity.
  cbn [stopped trace]. now rewrite stops_app, stops_teardown.
Qed.

Lemma pad_ids_fresh (k : NodeId) (l : list NodeId) :
  Forall (fun n => (n < k)%nat) l ->
  NoDup [k; 2 + k; 4 + k; 6 + k; 8 + k; 10 + k]%nat
  /\ Forall (fun o => (o < 12 + k)%nat /\ ~ In o l)
            [k; 2 + k; 4 + k; 6 + k; 8 + k; 10 + k]%nat.
Proof.
  intros Hl. rewrite Forall_forall in Hl. split.
  - repeat (constructor; [cbn; lia|]). constructor.
  - repeat (constructor;
            [split; [lia | intros Hin; specialize (Hl _ Hin); lia]|]).
    constructor.
Qed.

Lemma step_voices_fresh (op : Op) (w : World) :
  voices_fresh w -> voices_fresh (step host op w).
Proof.
  intros Hv. destruct op as [|p id| |id t|c]; cbn [step].
  - destruct (resume_frame w) as (r & Ht & Hs & He & _ & Hn & _ & _).
    apply (@voices_fresh_same w (snd (resume w)) r Hv He Ht); [lia | now left].
  - destruct (ctx (eng w)) as [c|] eqn:Hc;
      [|unfold play; rewrite Hc; exact Hv].
    destruct (state c) eqn:Hst;
      [destruct (on_resume c) eqn:Hr| |].
    2,3: rewrite (play_unresolved p id w Hc Hst) by congruence;
         cbn [snd];
         apply (@voices_fresh_same w (log [CtxResume] w) [CtxResume] Hv);
         cbn; try reflexivity; try lia; try (now left);
         now destruct (eng w).
    all: assert (Hres : state c = suspended -> on_resume c = resolves)
           by (intros; congruence);
         destruct (play_full p id w Hc Hres)
           as (w1 & c1 & w4 & fx & E1 & Hc1 & He1 & Hn1 & _ & _ & Ht1 & _
               & Ht4 & Hsf & _ & _ & _ & _ & _ & _ & _ & _ & _ & _ & Hlt
               & E);
         rewrite E; cbv zeta; cbn [snd];
         destruct (set_ctx_fields He1) as (_ & _ & _ & _ & _ & Eo1);
         assert (Es : stops (trace w4)
                      = stops (trace w) ++ currentOscillators (eng w))
           by (rewrite Ht4, Ht1, !stops_app, stops_teardown, Hsf, Eo1;
               destruct (state c); cbn; now rewrite ?app_nil_r);
         destruct Hv as (Hd & Hf & Ha & Hnd);
         assert (Hall : Forall (fun n => (n < next_node w4)%nat)
                               (stops (trace w4)))
           by (rewrite Es; apply Forall_app; split;
               [eapply Forall_impl; [|exact Ha]; cbn; intros; lia
               |eapply Forall_impl; [|exact Hf]; cbn; intros ? [? _]; lia]);
         destruct (pad_ids_fresh Hall) as (P1 & P2);
         unfold voices_fresh;
         cbn [eng currentOscillators next_node trace];
         rewrite !stops_app; cbn [pad_tone_calls stops flat_map app];
         rewrite app_nil_r;
         (split; [exact P1|]); (split; [exact P2|]);
         (split;
          [eapply Forall_impl; [|exact Hall]; cbn; intros; lia|]);
         rewrite Es; apply NoDup_app; [exact Hnd | exact Hd |];
         intros n Hin Ho; rewrite Forall_forall in Hf;
         now apply (Hf n Ho).
  - rewrite stop_eq. cbn [snd]. now apply stopped_voices_fresh.
  - destruct (fire_frame id t w) as (evs & Ht & Hs & He & _ & Hle & _ & _).
    apply (@voices_fresh_same w (snd (fire host id t w)) evs Hv He Ht Hle Hs).
  - apply (@voices_fresh_same w (with_eng (platform c) w) [] Hv).
    + cbn. unfold platform. now destruct (eng w) as [[?|] ? ? ? ? ? ?].
    + cbn. now rewrite app_nil_r.
    + cbn. lia.
    + now left.
Qed.

Lemma stopped_before_stops (tr : list Event) (o : NodeId) :
  Sample.stopped_before tr o = true -> In o (stops tr).
Proof.
  unfold Sample.stopped_before, stops. rewrite existsb_exists.
  intros (e & Hin & He). apply in_flat_map. exists e. split; [exact Hin|].
  destruct e; try discriminate. apply Nat.eqb_eq in He. now left.
Qed.

Lemma voices_teardown_clean (os : list NodeId) :
  raises_on_restop_only host ->
  NoDup os ->
  forall tr,
    (forall o, In o os -> ~ In o (stops tr)) ->
    voices_teardown host tr os
    = flat_map (fun o => [StopNode o None; Disconnect o]) os.
Proof.
  intros Hh. induction 1 as [|o os Hno Hnd IH]; intros tr Hf;
    [reflexivity|].
  cbn [voices_teardown flat_map].
  destruct (stop_throws host tr o) eqn:E.
  - exfalso. apply (Hf o (or_introl eq_refl)).
    now apply stopped_before_stops, Hh.
  - f_equal. apply IH. intros o' Ho' Hin.
    rewrite stops_app in Hin. apply in_app_or in Hin.
    destruct Hin as [Hin|[<-|[]]].
    + now apply (Hf o' (or_intror Ho')).
    + contradiction.
Qed.

(** X10.  No double release.  Whatever an engine goes through from its
    construction, its tracked voices are pairwise distinct and none of them
    has been stopped yet, and in the whole log of backend calls no node is
    stopped twice. *)
Theorem voices_stay_fresh (ops : list Op) (backend : option AudioContext) :
  voices_fresh (run_ops host ops (construct backend)).
Proof.
  apply run_ops_invariant; [apply step_voices_fresh|].
  unfold voices_fresh, construct. cbn.
  repeat split; constructor.
Qed.

(** X11.  On a backend whose [stop()] raises only for a node stopped
    before, the [try]/[catch] of [stop] never fires on an engine reached
    from its construction: [stop] clears the interval, then stops and
    disconnects every tracked voice, in tracking order, then disconnects
    the master gain, and makes no other call. *)
Theorem stop_releases_every_voice (ops : list Op)
  (backend : option AudioContext) :
  raises_on_restop_only host ->
  let w := run_ops host ops (construct backend) in
  events_since w (snd (stop host w))
  = timer_teardown w
    ++ flat_map (fun o => [StopNode o None; Disconnect o])
                (currentOscillators (eng w))
    ++ master_teardown w.
Proof.
  intros Hh w.
  assert (Hv : voices_fresh w).
  { apply run_ops_invariant; [apply step_voices_fresh|].
    unfold voices_fresh, construct. cbn. repeat split; constructor. }
  destruct Hv as (Hd & Hf & _ & _).
  rewrite stop_eq. cbn [snd].
  rewrite (@events_since_app w (stopped host w) (teardown_calls host w))
    by reflexivity.
  unfold teardown_calls. f_equal. f_equal.
  apply (voices_teardown_clean Hh Hd).
  intros o Ho Hin. rewrite Forall_forall in Hf.
  destruct (Hf o Ho) as [_ Hno]. apply Hno.
  rewrite stops_app in Hin. apply in_app_or in Hin.
  destruct Hin as [Hin|Hin]; [exact Hin|].
  unfold timer_teardown in Hin.
  destruct (melodyInterval (eng w)); destruct Hin.
Qed.

End Coverage.

(** * Properties of the caller *)

Section Caller.

Variable host : Host.

Local Open Scope Q_scope.

(** ** What a [play] leaves of the flags *)

Lemma resume_keeps_resumable (w : World) (c : AudioContext) :
  ctx (eng w) = Some c ->
  (state c = suspended -> on_resume c = resolves) ->
  exists w1 c1,
    resume w = (Normal, w1)
    /\ ctx (eng w1) = Some c1
    /\ (state c1 = suspended -> on_resume c1 = resolves)
    /\ isPlaying (eng w1) = isPlaying (eng w).
Proof.
  intros Hc Hr. unfold resume. rewrite Hc.
  destruct w as [[cx ip mg mi rv dl os] nn nt iv tr]. cbn in Hc. subst cx.
  destruct c as [st t sr outcome]. cbn in Hr. cbn [state on_resume].
  destruct st.
  - rewrite Hr by reflexivity. eexists. eexists.
    split; [reflexivity|]. cbn. repeat split; try reflexivity;
      try discriminate.
  - eexists. eexists. split; [reflexivity|]. cbn.
    repeat split; try reflexivity; try discriminate.
  - eexists. eexists. split; [reflexivity|]. cbn.
    repeat split; try reflexivity; try discriminate.
Qed.

Lemma play_flag (p : MusicalParams) (id : JSString) (w : World) :
  ctx (eng w) <> None ->
  (fst (play host p id w) = Normal
   /\ isPlaying (eng (snd (play host p id w))) = true
   /\ ctx (eng (snd (play host p id w))) <> None)
  \/ (fst (play host p id w) <> Normal
      /\ eng (snd (play host p id w)) = eng w).
Proof.
  intros Hn. destruct (ctx (eng w)) as [c|] eqn:Hc; [|congruence].
  destruct (state c) eqn:Hst; [destruct (on_resume c) eqn:Hr| |].
  2,3: right; rewrite (play_unresolved host p id w Hc Hst) by congruence;
       rewrite Hr; cbn; split; [discriminate | reflexivity].
  all: left;
       assert (Hres : state c = suspended -> on_resume c = resolves)
         by (intros; congruence);
       destruct (play_spec host p id w Hc Hres)
         as (w' & c1 & b & E & _ & _ & _ & C1 & I1 & _);
       rewrite E; cbn [fst snd]; rewrite C1;
       repeat split; [exact I1 | discriminate].
Qed.

Lemma playMemoryMusic_flags (mem : App.Memory) (a : App.State) (w : World) :
  ctx (eng w) <> None ->
  flags_agree (a, w) ->
  flags_agree (snd (App.playMemoryMusic host mem (a, w)))
  /\ (ctx (eng (snd (snd (App.playMemoryMusic host mem (a, w))))) <> None).
Proof.
  intros Hn Hf. unfold App.playMemoryMusic, flags_agree in *.
  cbn [fst snd] in Hf.
  destruct (play_flag (App.musicalParams mem) (App.id mem) w Hn)
    as [(E & I & C)|(E & Ee)];
    destruct (play host (App.musicalParams mem) (App.id mem) w)
      as [[ | | ] w'];
    cbn [fst snd] in *; try congruence;
    try (split; [cbn; congruence | congruence]).
Qed.

Lemma move_to_flags (next : Z) (a : App.State) (w : World) :
  ctx (eng w) <> None ->
  flags_agree (a, w) ->
  flags_agree (App.move_to host next (a, w)).
Proof.
  intros Hn Hf. unfold App.move_to. cbn [fst].
  destruct (index (App.memories a) next) as [mem|].
  - destruct (@playMemoryMusic_flags mem a w Hn Hf) as [H _].
    destruct (snd (App.playMemoryMusic host mem (a, w))) as [a' w'].
    exact H.
  - exact Hf.
Qed.

(** X12.  On an engine that has a context, the play flag of the component
    and the liveness flag of the engine stay equal through every music and
    navigation handler: starting a memory's music (whether [play] completes,
    is rejected or never continues), toggling, moving to the next or the
    previous memory, creating a memory, and leaving for the creation
    form. *)
Theorem flags_stay_in_step (s : App.State * World) (mem : App.Memory)
  (newId dateStr : JSString) (metadata : App.Metadata) :
  ctx (eng (snd s)) <> None ->
  flags_agree s ->
  flags_agree (snd (App.playMemoryMusic host mem s))
  /\ flags_agree (snd (App.toggleMusic host s))
  /\ flags_agree (App.nextMemory host s)
  /\ flags_agree (App.prevMemory host s)
  /\ flags_agree (snd (App.handleCreateMemory host newId dateStr metadata s))
  /\ flags_agree (snd (App.addAnotherMemory host s)).
Proof.
  destruct s as [a w]. cbn [snd]. intros Hn Hf.
  repeat match goal with |- _ /\ _ => split end.
  - now apply playMemoryMusic_flags.
  - unfold App.toggleMusic.
    destruct (App.activeMemory a) as [m|]; [|exact Hf].
    destruct (App.isPlaying a); [|now apply playMemoryMusic_flags].
    rewrite stop_eq. reflexivity.
  - unfold App.nextMemory. cbn [fst].
    destruct (Z.of_nat (List.length (App.memories a)) =? 0)%Z;
      [exact Hf | now apply move_to_flags].
  - unfold App.prevMemory. cbn [fst].
    destruct (Z.of_nat (List.length (App.memories a)) =? 0)%Z;
      [exact Hf | now apply move_to_flags].
  - unfold App.handleCreateMemory.
    destruct (App.selectedImage a) as [image|]; [|exact Hf].
    destruct (App.truthy_str image && App.truthy_str (App.diaryEntry a));
      [|exact Hf].
    destruct (resume_frame w) as (r & _ & _ & He & Hc & _).
    destruct (set_ctx_fields He) as (Ep & _).
    destruct (resume w) as [[ | | ] w1]; cbn [snd] in *.
    + apply playMemoryMusic_flags.
      * intros E. apply Hn. now apply Hc.
      * unfold flags_agree in *. cbn in *. congruence.
    + unfold flags_agree in *. cbn in *. congruence.
    + unfold flags_agree in *. cbn in *. congruence.
  - unfold App.addAnotherMemory. rewrite stop_eq. reflexivity.
Qed.

(** X13.  On an engine without a context the two flags part: [play]
    returns at once, so [playMemoryMusic] completes and sets the play flag
    of the component, while the engine makes no backend call and changes
    no field. *)
Theorem silent_engine_reports_playing (mem : App.Memory) (a : App.State)
  (w : World) :
  ctx (eng w) = None ->
  let r := App.playMemoryMusic host mem (a, w) in
  fst r = Normal
  /\ App.isPlaying (fst (snd r)) = true
  /\ snd (snd r) = w
  /\ (isPlaying (eng w) = false -> ~ flags_agree (snd r)).
Proof.
  intros Hc r. subst r. unfold App.playMemoryMusic, play. rewrite Hc.
  cbn. repeat split. unfold flags_agree. cbn. congruence.
Qed.

(** ** Navigation *)

Lemma playMemoryMusic_keeps (mem : App.Memory) (a : App.State) (w : World) :
  let a' := fst (snd (App.playMemoryMusic host mem (a, w))) in
  App.memories a' = App.memories a
  /\ App.currentMemoryIndex a' = App.currentMemoryIndex a.
Proof.
  unfold App.playMemoryMusic.
  destruct (play host (App.musicalParams mem) (App.id mem) w)
    as [[ | | ] w']; cbn; auto.
Qed.

Lemma move_to_state (next : Z) (a : App.State) (w : World) :
  App.currentMemoryIndex (fst (App.move_to host next (a, w))) = next
  /\ App.memories (fst (App.move_to host next (a, w))) = App.memories a
  /\ App.orbShapeIndex (fst (App.move_to host next (a, w))) = 0%Z.
Proof.
  unfold App.move_to. cbn [fst].
  destruct (index (App.memories a) next) as [mem|].
  - destruct (playMemoryMusic_keeps mem a w) as [Hm _].
    destruct (snd (App.playMemoryMusic host mem (a, w))) as [a' w'].
    cbn in *. auto.
  - cbn. auto.
Qed.

Lemma next_index (i n : Z) :
  (0 <= i < n)%Z ->
  App.js_rem (i + 1) n = (if (i + 1 =? n)%Z then 0 else i + 1)%Z.
Proof.
  intros H. unfold App.js_rem.
  destruct (Z.eqb_spec (i + 1) n) as [->|Hne].
  - apply Z.rem_same. lia.
  - apply Z.rem_small. lia.
Qed.

Lemma prev_index (i n : Z) :
  (0 <= i < n)%Z ->
  App.js_rem (i - 1 + n) n = (if (i =? 0)%Z then n - 1 else i - 1)%Z.
Proof.
  intros H. unfold App.js_rem. rewrite Z.rem_mod_nonneg by lia.
  destruct (Z.eqb_spec i 0) as [->|Hne].
  - replace (0 - 1 + n)%Z with (n - 1)%Z by lia. apply Z.mod_small. lia.
  - replace (i - 1 + n)%Z with (i - 1 + 1 * n)%Z by lia.
    rewrite Z_mod_plus_full. apply Z.mod_small. lia.
Qed.

Lemma nextMemory_state (a : App.State) (w : World) :
  points_at_memory a ->
  App.currentMemoryIndex (fst (App.nextMemory host (a, w)))
  = App.js_rem (App.currentMemoryIndex a + 1)
               (Z.of_nat (List.length (App.memories a)))
  /\ App.memories (fst (App.nextMemory host (a, w))) = App.memories a.
Proof.
  intros H. unfold points_at_memory in H. unfold App.nextMemory. cbn [fst].
  destruct (Z.eqb_spec (Z.of_nat (List.length (App.memories a))) 0);
    [lia|].
  destruct (move_to_state
              (App.js_rem (App.currentMemoryIndex a + 1)
                          (Z.of_nat (List.length (App.memories a)))) a w)
    as (H1 & H2 & _).
  auto.
Qed.

Lemma prevMemory_state (a : App.State) (w : World) :
  points_at_memory a ->
  App.currentMemoryIndex (fst (App.prevMemory host (a, w)))
  = App.js_rem (App.currentMemoryIndex a - 1
                + Z.of_nat (List.length (App.memories a)))
               (Z.of_nat (List.length (App.memories a)))
  /\ App.memories (fst (App.prevMemory host (a, w))) = App.memories a.
Proof.
  intros H. unfold points_at_memory in H. unfold App.prevMemory. cbn [fst].
  destruct (Z.eqb_spec (Z.of_nat (List.length (App.memories a))) 0);
    [lia|].
  destruct (move_to_state
              (App.js_rem (App.currentMemoryIndex a - 1
                           + Z.of_nat (List.length (App.memories a)))
                          (Z.of_nat (List.length (App.memories a)))) a w)
    as (H1 & H2 & _).
  auto.
Qed.

(** X14.  Navigation wraps and stays in range.  When the index points at a
    memory, [nextMemory] moves it to the following one and from the last to
    the first, [prevMemory] to the preceding one and from the first to the
    last; each leaves the list of memories alone and the index pointing at
    a memory; and each undoes the other. *)
Theorem navigation_wraps (a : App.State) (w : World) :
  points_at_memory a ->
  let len := Z.of_nat (List.length (App.memories a)) in
  let i := App.currentMemoryIndex a in
  let n := App.nextMemory host (a, w) in
  let p := App.prevMemory host (a, w) in
  App.currentMemoryIndex (fst n) = (if (i + 1 =? len)%Z then 0 else i + 1)%Z
  /\ App.currentMemoryIndex (fst p)
     = (if (i =? 0)%Z then len - 1 else i - 1)%Z
  /\ points_at_memory (fst n) /\ points_at_memory (fst p)
  /\ App.memories (fst n) = App.memories a
  /\ App.memories (fst p) = App.memories a
  /\ App.currentMemoryIndex (fst (App.prevMemory host n)) = i
  /\ App.currentMemoryIndex (fst (App.nextMemory host p)) = i.
Proof.
  intros H len i n p.
  destruct (@nextMemory_state a w H) as [Hn Mn].
  destruct (@prevMemory_state a w H) as [Hp Mp].
  fold n in Hn, Mn. fold p in Hp, Mp. fold len i in Hn, Hp.
  unfold points_at_memory in H. fold len i in H.
  rewrite next_index in Hn by exact H.
  rewrite prev_index in Hp by exact H.
  assert (Rn : points_at_memory (fst n)).
  { unfold points_at_memory. rewrite Hn, Mn. fold len.
    destruct (Z.eqb_spec (i + 1) len); lia. }
  assert (Rp : points_at_memory (fst p)).
  { unfold points_at_memory. rewrite Hp, Mp. fold len.
    destruct (Z.eqb_spec i 0); lia. }
  repeat match goal with |- _ /\ _ => split end; auto.
  - destruct n as [an wn]. cbn [fst] in *.
    destruct (@prevMemory_state an wn Rn) as [E _]. rewrite E, Hn, Mn.
    fold len. unfold points_at_memory in Rn. rewrite Hn, Mn in Rn.
    fold len in Rn. rewrite prev_index by exact Rn.
    destruct (Z.eqb_spec (i + 1) len); cbn;
      [lia | destruct (Z.eqb_spec (i + 1) 0); lia].
  - destruct p as [ap wp]. cbn [fst] in *.
    destruct (@nextMemory_state ap wp Rp) as [E _]. rewrite E, Hp, Mp.
    fold len. unfold points_at_memory in Rp. rewrite Hp, Mp in Rp.
    fold len in Rp. rewrite next_index by exact Rp.
    destruct (Z.eqb_spec i 0).
    + destruct (Z.eqb_spec (len - 1 + 1) len); lia.
    + destruct (Z.eqb_spec (i - 1 + 1) len); lia.
Qed.

(** ** The music follows the memory shown *)

Lemma playMemoryMusic_plays (mem : App.Memory) (a : App.State) (w : World)
  (c : AudioContext) :
  ctx (eng w) = Some c ->
  (state c = suspended -> on_resume c = resolves) ->
  exists w',
    App.playMemoryMusic host mem (a, w)
    = (Normal, (App.set_isPlaying true a, w'))
    /\ plays_memory host mem w'.
Proof.
  intros Hc Hr. unfold App.playMemoryMusic.
  destruct (play_spec host (App.musicalParams mem) (App.id mem) w Hc Hr)
    as (w' & c1 & b & E & _ & _ & _ & C1 & I1 & M1 & _ & S1 & _).
  rewrite E. exists w'. split; [reflexivity|].
  split; [|exact S1].
  unfold live. rewrite I1, C1, M1. repeat split; discriminate.
Qed.

Lemma index_some (A : Type) (l : list A) (k : Z) :
  (0 <= k < Z.of_nat (List.length l))%Z -> exists x, index l k = Some x.
Proof.
  intros H. unfold index. destruct (Z.ltb_spec k 0); [lia|].
  destruct (nth_error l (Z.to_nat k)) eqn:E; [eauto|].
  apply nth_error_None in E. lia.
Qed.

Lemma index_active (l : list App.Memory) (k : Z) (m : App.Memory) :
  index l k = Some m ->
  (0 <=? k)%Z && (0 <? List.length l)%nat = true.
Proof.
  unfold index. destruct (Z.ltb_spec k 0); [discriminate|]. intros E.
  apply andb_true_intro. split; [apply Z.leb_le; lia|].
  apply Nat.ltb_lt. destruct l; [|cbn; lia].
  now destruct (Z.to_nat k).
Qed.

Lemma activeMemory_at (a : App.State) (m : App.Memory) :
  index (App.memories a) (App.currentMemoryIndex a) = Some m ->
  App.activeMemory a = Some m.
Proof.
  intros H. unfold App.activeMemory.
  now rewrite (@index_active _ _ _ H).
Qed.

Lemma move_to_plays (next : Z) (a : App.State) (w : World)
  (c : AudioContext) (m : App.Memory) :
  index (App.memories a) next = Some m ->
  ctx (eng w) = Some c ->
  (state c = suspended -> on_resume c = resolves) ->
  App.activeMemory (fst (App.move_to host next (a, w))) = Some m
  /\ plays_memory host m (snd (App.move_to host next (a, w)))
  /\ App.isPlaying (fst (App.move_to host next (a, w))) = true.
Proof.
  intros Hi Hc Hr. unfold App.move_to. cbn [fst]. rewrite Hi.
  destruct (playMemoryMusic_plays m a w Hc Hr) as (w' & E & Hp).
  rewrite E. cbn [fst snd].
  repeat split; try apply Hp.
  apply activeMemory_at. exact Hi.
Qed.

(** X15.  The music follows the memory shown.  When the index points at a
    memory and the engine has a context that can be resumed, after
    [nextMemory] and after [prevMemory] the active memory is the one the
    engine plays: the session is live and its melody closes over that
    memory's parameters, the scale table they select and the generator
    seeded from that memory's identifier; and the play flag is set. *)
Theorem navigation_plays_active_memory (a : App.State) (w : World)
  (c : AudioContext) :
  points_at_memory a ->
  ctx (eng w) = Some c ->
  (state c = suspended -> on_resume c = resolves) ->
  let n := App.nextMemory host (a, w) in
  let p := App.prevMemory host (a, w) in
  (exists m, App.activeMemory (fst n) = Some m
             /\ plays_memory host m (snd n)
             /\ App.isPlaying (fst n) = true)
  /\ (exists m, App.activeMemory (fst p) = Some m
                /\ plays_memory host m (snd p)
                /\ App.isPlaying (fst p) = true).
Proof.
  intros H Hc Hr n p. subst n p. unfold points_at_memory in H.
  unfold App.nextMemory, App.prevMemory. cbn [fst].
  destruct (Z.eqb_spec (Z.of_nat (List.length (App.memories a))) 0);
    [lia|].
  split.
  - destruct (@index_some _ (App.memories a)
                (App.js_rem (App.currentMemoryIndex a + 1)
                            (Z.of_nat (List.length (App.memories a)))))
      as [m Hm].
    { rewrite next_index by exact H.
      destruct (Z.eqb_spec (App.currentMemoryIndex a + 1)
                           (Z.of_nat (List.length (App.memories a)))); lia. }
    exists m. now apply move_to_plays with (c := c).
  - destruct (@index_some _ (App.memories a)
                (App.js_rem (App.currentMemoryIndex a - 1
                             + Z.of_nat (List.length (App.memories a)))
                            (Z.of_nat (List.length (App.memories a)))))
      as [m Hm].
    { rewrite prev_index by exact H.
      destruct (Z.eqb_spec (App.currentMemoryIndex a) 0); lia. }
    exists m. now apply move_to_plays with (c := c).
Qed.

(** ** Creating a memory *)

Lemma truthy_str_true (s : JSString) : s <> [] -> App.truthy_str s = true.
Proof.
  destruct s; [congruence | reflexivity].
Qed.

(** X16.  Creating a memory.  With an image and a diary text filled in, on
    an engine whose context can be resumed, [handleCreateMemory] completes:
    the new memory is appended, the index points at it, it is the active
    memory, the view is the orb, the form is cleared and no longer
    processing, the play flag is set, and the engine plays the new
    memory. *)
Theorem created_memory_plays (a : App.State) (w : World) (c : AudioContext)
  (image newId dateStr : JSString) (metadata : App.Metadata) :
  App.selectedImage a = Some image ->
  image <> [] ->
  App.diaryEntry a <> [] ->
  ctx (eng w) = Some c ->
  (state c = suspended -> on_resume c = resolves) ->
  let r := App.handleCreateMemory host newId dateStr metadata (a, w) in
  let a' := fst (snd r) in
  let m := App.mkMemory newId image (App.diaryEntry a) dateStr
                        (App.md_keywords metadata)
                        (App.md_musicalParams metadata)
                        (App.md_title metadata) in
  fst r = Normal
  /\ App.memories a' = App.memories a ++ [m]
  /\ App.currentMemoryIndex a' = Z.of_nat (List.length (App.memories a))
  /\ App.activeMemory a' = Some m
  /\ App.view a' = App.orb
  /\ App.selectedImage a' = None
  /\ App.diaryEntry a' = []
  /\ App.isProcessing a' = false
  /\ App.isPlaying a' = true
  /\ plays_memory host m (snd (snd r)).
Proof.
  intros Hs Hi Hd Hc Hr r a' m. subst a' r.
  unfold App.handleCreateMemory. rewrite Hs.
  rewrite (truthy_str_true Hi), (truthy_str_true Hd). cbn [andb].
  destruct (resume_keeps_resumable w Hc Hr) as (w1 & c1 & E1 & Hc1 & Hr1 & _).
  rewrite E1. cbn [App.set_isProcessing App.diaryEntry App.memories
                   App.orbShapeIndex App.isPlaying].
  fold m.
  match goal with
  | |- context [App.playMemoryMusic host m (?s, w1)] =>
      destruct (playMemoryMusic_plays m s w1 Hc1 Hr1) as (w' & E & Hp)
  end.
  rewrite E. cbn [fst snd App.set_isPlaying App.memories
                  App.currentMemoryIndex App.view App.selectedImage
                  App.diaryEntry App.isProcessing App.isPlaying
                  App.orbShapeIndex].
  assert (Hlen : (Z.of_nat (List.length (App.memories a ++ [m])) - 1
                  = Z.of_nat (List.length (App.memories a)))%Z).
  { rewrite length_app. cbn [List.length]. lia. }
  repeat match goal with |- _ /\ _ => split end; try reflexivity;
    try exact Hlen; try exact Hp.
  apply activeMemory_at. unfold App.set_isPlaying.
  cbn [App.currentMemoryIndex App.memories].
  rewrite ?Hlen. unfold index.
  destruct (Z.ltb_spec (Z.of_nat (List.length (App.memories a))) 0);
    [lia|].
  rewrite Nat2Z.id, nth_error_app2, Nat.sub_diag by lia. reflexivity.
Qed.

(** X17.  When the resume inside [handleCreateMemory] does not resolve, the
    handler ends there with the form still marked as processing: no memory
    is added, no music is torn down or started, and the only backend call
    is [ctx.resume()]. *)
Theorem creation_stalls_without_resume (a : App.State) (w : World)
  (c : AudioContext) (image newId dateStr : JSString)
  (metadata : App.Metadata) :
  App.selectedImage a = Some image ->
  image <> [] ->
  App.diaryEntry a <> [] ->
  ctx (eng w) = Some c ->
  state c = suspended ->
  on_resume c <> resolves ->
  let r := App.handleCreateMemory host newId dateStr metadata (a, w) in
  fst r = match on_resume c with rejects => Throw | _ => Pending end
  /\ App.isProcessing (fst (snd r)) = true
  /\ App.memories (fst (snd r)) = App.memories a
  /\ App.view (fst (snd r)) = App.view a
  /\ App.isPlaying (fst (snd r)) = App.isPlaying a
  /\ eng (snd (snd r)) = eng w
  /\ intervals (snd (snd r)) = intervals w
  /\ events_since w (snd (snd r)) = [CtxResume].
Proof.
  intros Hs Hi Hd Hc Hst Hr r. subst r.
  unfold App.handleCreateMemory. rewrite Hs.
  rewrite (truthy_str_true Hi), (truthy_str_true Hd). cbn [andb].
  assert (E : resume w
              = (match on_resume c with rejects => Throw | _ => Pending end,
                 log [CtxResume] w)).
  { unfold resume. rewrite Hc, Hst. destruct (on_resume c);
      [congruence | reflexivity | reflexivity]. }
  rewrite E.
  destruct (on_resume c); [congruence| |];
    cbn; repeat split; now apply events_since_app.
Qed.

End Caller.

(** ** The draws *)

(** X18.  Whatever the host's sine, every draw of a seeded generator lies
    in [0, 1), and draw [k] is the fractional part of
    [Math.sin(hash + k) * 10000]: the generator walks the integers upward
    from the seed hash. *)
Theorem draws_in_unit_interval (host : Host) (seed : JSString) (k : nat) :
  (0 <= draw k (getRandomFromSeed host seed))%Q
  /\ (draw k (getRandomFromSeed host seed) < 1)%Q
  /\ draw k (getRandomFromSeed host seed)
     = (Math_sin host (seed_hash seed + Z.of_nat k) * 10000
        - inject_Z (floor (Math_sin host (seed_hash seed + Z.of_nat k)
                           * 10000)))%Q.
Proof.
  destruct (seeded_unit_range host seed k) as [H0 H1].
  repeat split; try assumption. apply draw_seeded.
Qed.

(** * Instances of the further properties *)

Module CoverageInstances.

Import Sample Scenario.

Local Open Scope Q_scope.

Lemma seed_hash_exact_witness :
  (Z.abs (seed_hash memoryId) <= 5 * (2 ^ 31 + 65535))%Z.
Proof.
  refine (proj1 (@seed_hash_exact host memoryId 6 _ _ _)).
  - repeat constructor; cbn; lia.
  - cbn. lia.
  - cbn. lia.
Defined.

Lemma session_never_throws_witness :
  Forall (well_formed_outcome host params (scaleNotes params))
         (fst (session_ticks host [1; 2; 3; 4]
                 (snd (play host params memoryId initial)))).
Proof.
  apply (@session_never_throws host params memoryId initial
           (mkCtx suspended 0 48000 resolves) [1; 2; 3; 4]).
  - reflexivity.
  - reflexivity.
Defined.

Lemma failed_resume_keeps_session_witness :
  fst (play host params memoryId refusing) = Throw
  /\ eng (snd (play host params memoryId refusing)) = eng refusing.
Proof.
  destruct (@failed_resume_keeps_session host params memoryId refusing
              (mkCtx suspended 9 48000 rejects))
    as (H1 & H2 & _).
  - reflexivity.
  - reflexivity.
  - discriminate.
  - split; [exact H1 | exact H2].
Defined.

Lemma effects_bus_built_once_witness :
  List.length
    (filter is_effect_unit
       (events_since initial (snd (play host params memoryId initial))))
  = 3%nat
  /\ List.length
       (filter is_effect_unit
          (events_since playing (snd (play host params memoryId playing))))
     = 0%nat.
Proof.
  destruct (@effects_bus_built_once host params memoryId initial
              (mkCtx suspended 0 48000 resolves) eq_refl (fun _ => eq_refl))
    as (_ & _ & _ & _ & H1 & _).
  destruct (@effects_bus_built_once host params memoryId playing
              (mkCtx suspended 5 48000 resolves) eq_refl (fun _ => eq_refl))
    as (_ & _ & _ & _ & H2 & _).
  split; [exact H1 | exact H2].
Defined.

Lemma sample_raises_on_restop_only : raises_on_restop_only host.
Proof.
  intros tr o H. exact H.
Defined.

Lemma stop_releases_every_voice_witness :
  let w := run_ops host history
                   (construct (Some (mkCtx suspended 0 48000 resolves))) in
  events_since w (snd (stop host w))
  = timer_teardown w
    ++ flat_map (fun o => [StopNode o None; Disconnect o])
                (currentOscillators (eng w))
    ++ master_teardown w.
Proof.
  exact (@stop_releases_every_voice host history
           (Some (mkCtx suspended 0 48000 resolves))
           sample_raises_on_restop_only).
Defined.

Lemma flags_stay_in_step_witness :
  flags_agree (snd (App.toggleMusic host (browsing, first_session)))
  /\ flags_agree (App.nextMemory host (browsing, first_session)).
Proof.
  destruct (@flags_stay_in_step host (browsing, first_session) (memory "m1")
              (lit "id") (lit "Monday") metadata)
    as (_ & H1 & H2 & _).
  - cbn. discriminate.
  - reflexivity.
  - split; [exact H1 | exact H2].
Defined.

Lemma silent_engine_reports_playing_witness :
  App.isPlaying
    (fst (snd (App.playMemoryMusic host (memory "m1") (App.initial, disabled))))
  = true
  /\ ~ flags_agree
         (snd (App.playMemoryMusic host (memory "m1") (App.initial, disabled))).
Proof.
  destruct (@silent_engine_reports_playing host (memory "m1") App.initial
              disabled eq_refl)
    as (_ & H1 & _ & H2).
  split; [exact H1 | apply H2; reflexivity].
Defined.

Lemma browsing_points_at_memory : points_at_memory browsing.
Proof.
  unfold points_at_memory. cbn. lia.
Defined.

Lemma navigation_wraps_witness :
  App.currentMemoryIndex (fst (App.nextMemory host (browsing, first_session)))
  = 0%Z
  /\ App.currentMemoryIndex
       (fst (App.prevMemory host (browsing, first_session)))
     = 1%Z.
Proof.
  destruct (@navigation_wraps host browsing first_session
              browsing_points_at_memory)
    as (H1 & H2 & _).
  split; [exact H1 | exact H2].
Defined.

Lemma navigation_plays_active_memory_witness :
  exists m,
    App.activeMemory (fst (App.nextMemory host (browsing, first_session)))
    = Some m
    /\ plays_memory host m (snd (App.nextMemory host (browsing, first_session))).
Proof.
  destruct (@navigation_plays_active_memory host browsing first_session
              (mkCtx running 0 48000 resolves) browsing_points_at_memory)
    as ((m & H1 & H2 & _) & _).
  - reflexivity.
  - discriminate.
  - exists m. split; [exact H1 | exact H2].
Defined.

Lemma created_memory_plays_witness :
  App.currentMemoryIndex
    (fst (snd (App.handleCreateMemory host (lit "17000000000.42")
                 (lit "Monday") metadata (filled_form, initial))))
  = 1%Z
  /\ App.isPlaying
       (fst (snd (App.handleCreateMemory host (lit "17000000000.42")
                    (lit "Monday") metadata (filled_form, initial))))
     = true.
Proof.
  destruct (@created_memory_plays host filled_form initial
              (mkCtx suspended 0 48000 resolves) (lit "data:image")
              (lit "17000000000.42") (lit "Monday") metadata)
    as (_ & _ & H1 & _ & _ & _ & _ & _ & H2 & _).
  - reflexivity.
  - discriminate.
  - discriminate.
  - reflexivity.
  - reflexivity.
  - split; [exact H1 | exact H2].
Defined.

Lemma creation_stalls_without_resume_witness :
  App.isProcessing
    (fst (snd (App.handleCreateMemory host (lit "17000000000.42")
                 (lit "Monday") metadata (filled_form, refusing))))
  = true
  /\ App.memories
       (fst (snd (App.handleCreateMemory host (lit "17000000000.42")
                    (lit "Monday") metadata (filled_form, refusing))))
     = App.memories filled_form.
Proof.
  destruct (@creation_stalls_without_resume host filled_form refusing
              (mkCtx suspended 9 48000 rejects) (lit "data:image")
              (lit "17000000000.42") (lit "Monday") metadata)
    as (_ & H1 & H2 & _).
  - reflexivity.
  - discriminate.
  - discriminate.
  - reflexivity.
  - reflexivity.
  - discriminate.
  - split; [exact H1 | exact H2].
Defined.

End CoverageInstances.
